(** * A JavaScript binary tree over a mutable heap

    The program under study is the [BinaryTree] prototype: nodes are heap
    objects with a [value] and two nullable child links, the tree object
    holds a nullable [root], and the methods walk or rewrite those links in
    place.

    The development has two layers.
    - The heap layer follows the source statement by statement: a store of
      node objects indexed by references, a state/error monad for reads,
      writes and allocation, and fuel for the [while] loops and the
      recursive methods (an exhausted budget is the only way to get [None]
      on a well-formed heap).
    - The tree layer is the mathematical tree a heap represents, annotated
      with the reference of each node, and the textbook functions on it.
    Refinement lemmas connect the two; the properties of the methods are
    stated on the heap layer.

    Keys are the integer-valued numbers of the demonstration driver, so
    [===] and [<] are equality and order on [Z]. *)

From stdpp Require Import gmap strings list pretty sorting.
From Stdlib Require Import ZArith Lia Ascii.

Local Open Scope Z_scope.

(** ** Heap objects *)

(** References to [Node] objects; [null] is [None] at type [option loc]. *)
Definition loc := positive.

(** [function Node(value) { this.value = value; this.left = null;
    this.right = null; }] *)
Record Node := mkNode {
  value : Z;
  left : option loc;
  right : option loc
}.

(** The store of nodes together with the single [BinaryTree] object
    ([this]), whose only field is [root]. *)
Record state := mkState {
  heap : gmap loc Node;
  root : option loc
}.

(** [new BinaryTree()] *)
Definition BinaryTree : state := mkState ∅ None.

(** The JavaScript values that [insert] can return. *)
Inductive js_value :=
| JSUndefined
| JSNull
| JSBoolean (b : bool)
| JSNumber (z : Z)
| JSThis.

(** ** The monad of heap computations *)

(** [None] means the computation did not return: it ran out of fuel or
    dereferenced a reference that is not in the store. *)
Definition M (A : Type) : Type := state → option (A * state).

#[local] Instance M_ret : MRet M := λ A a s, Some (a, s).
#[local] Instance M_bind : MBind M := λ A B f m s,
  match m s with
  | Some (a, s') => f a s'
  | None => None
  end.

Definition fail {A} : M A := λ _, None.

Definition get_root : M (option loc) := λ s, Some (root s, s).

Definition set_root (o : option loc) : M unit := λ s,
  Some (tt, mkState (heap s) o).

(** [new Node(value)]: a fresh reference, both links [null]. *)
Definition new_Node (v : Z) : M loc := λ s,
  let p := fresh (dom (heap s)) in
  Some (p, mkState (<[p := mkNode v None None]> (heap s)) (root s)).

Definition load (p : loc) : M Node := λ s,
  match heap s !! p with
  | Some n => Some (n, s)
  | None => None
  end.

(** [p.left = o] *)
Definition store_left (p : loc) (o : option loc) : M unit := λ s,
  match heap s !! p with
  | Some n => Some (tt, mkState (<[p := mkNode (value n) o (right n)]> (heap s)) (root s))
  | None => None
  end.

(** [p.right = o] *)
Definition store_right (p : loc) (o : option loc) : M unit := λ s,
  match heap s !! p with
  | Some n => Some (tt, mkState (<[p := mkNode (value n) (left n) o]> (heap s)) (root s))
  | None => None
  end.

(** ** The methods of [BinaryTree.prototype] *)

(** The [while (true)] loop of [insert], one iteration per unit of fuel. *)
Fixpoint insert_loop (fuel : nat) (v : Z) (newNode current : loc) : M js_value :=
  match fuel with
  | O => fail
  | S fuel =>
      cur ← load current;
      if decide (v = value cur) then mret JSUndefined
      else if decide (v < value cur) then
        match left cur with
        | None => _ ← store_left current (Some newNode); mret JSThis
        | Some l => insert_loop fuel v newNode l
        end
      else
        match right cur with
        | None => _ ← store_right current (Some newNode); mret JSThis
        | Some r => insert_loop fuel v newNode r
        end
  end.

Definition insert (fuel : nat) (v : Z) : M js_value :=
  newNode ← new_Node v;
  r ← get_root;
  match r with
  | None => _ ← set_root (Some newNode); mret JSThis
  | Some current => insert_loop fuel v newNode current
  end.

(** The [while (current)] loop of [search]. *)
Fixpoint search_loop (fuel : nat) (v : Z) (current : option loc) : M bool :=
  match fuel with
  | O => fail
  | S fuel =>
      match current with
      | None => mret false
      | Some p =>
          cur ← load p;
          if decide (v = value cur) then mret true
          else if decide (v < value cur) then search_loop fuel v (left cur)
          else search_loop fuel v (right cur)
      end
  end.

Definition search (fuel : nat) (v : Z) : M bool :=
  r ← get_root;
  match r with
  | None => mret false
  | Some _ => search_loop fuel v r
  end.

(** The traversals push onto the [result] array that is threaded through
    the recursive calls; the array is returned. *)
Fixpoint inOrderTraversal (fuel : nat) (node : option loc) (result : list Z)
  : M (list Z) :=
  match fuel with
  | O => fail
  | S fuel =>
      match node with
      | None => mret result
      | Some p =>
          n ← load p;
          result ← inOrderTraversal fuel (left n) result;
          n ← load p;
          let result := result ++ [value n] in
          inOrderTraversal fuel (right n) result
      end
  end.

Fixpoint preOrderTraversal (fuel : nat) (node : option loc) (result : list Z)
  : M (list Z) :=
  match fuel with
  | O => fail
  | S fuel =>
      match node with
      | None => mret result
      | Some p =>
          n ← load p;
          let result := result ++ [value n] in
          result ← preOrderTraversal fuel (left n) result;
          n ← load p;
          preOrderTraversal fuel (right n) result
      end
  end.

Fixpoint postOrderTraversal (fuel : nat) (node : option loc) (result : list Z)
  : M (list Z) :=
  match fuel with
  | O => fail
  | S fuel =>
      match node with
      | None => mret result
      | Some p =>
          n ← load p;
          result ← postOrderTraversal fuel (left n) result;
          n ← load p;
          result ← postOrderTraversal fuel (right n) result;
          n ← load p;
          mret (result ++ [value n])
      end
  end.

(** [findMin] and [findMax] return [null] ([None]) or a key. *)
Fixpoint findMin_loop (fuel : nat) (node : loc) : M Z :=
  match fuel with
  | O => fail
  | S fuel =>
      n ← load node;
      match left n with
      | None => mret (value n)
      | Some l => findMin_loop fuel l
      end
  end.

Definition findMin (fuel : nat) (node : option loc) : M (option Z) :=
  match node with
  | None => mret None
  | Some p => v ← findMin_loop fuel p; mret (Some v)
  end.

Fixpoint findMax_loop (fuel : nat) (node : loc) : M Z :=
  match fuel with
  | O => fail
  | S fuel =>
      n ← load node;
      match right n with
      | None => mret (value n)
      | Some r => findMax_loop fuel r
      end
  end.

Definition findMax (fuel : nat) (node : option loc) : M (option Z) :=
  match node with
  | None => mret None
  | Some p => v ← findMax_loop fuel p; mret (Some v)
  end.

Fixpoint getHeight (fuel : nat) (node : option loc) : M Z :=
  match fuel with
  | O => fail
  | S fuel =>
      match node with
      | None => mret (-1)
      | Some p =>
          n ← load p;
          leftHeight ← getHeight fuel (left n);
          n ← load p;
          rightHeight ← getHeight fuel (right n);
          mret (Z.max leftHeight rightHeight + 1)
      end
  end.

Fixpoint countNodes (fuel : nat) (node : option loc) : M Z :=
  match fuel with
  | O => fail
  | S fuel =>
      match node with
      | None => mret 0
      | Some p =>
          n ← load p;
          cl ← countNodes fuel (left n);
          n ← load p;
          cr ← countNodes fuel (right n);
          mret (1 + cl + cr)
      end
  end.

(** [invert] swaps the two links of [node], then recurses into
    [node.left] and [node.right] as they are read after the swap. It
    returns [node]. *)
Fixpoint invert (fuel : nat) (node : option loc) : M (option loc) :=
  match fuel with
  | O => fail
  | S fuel =>
      match node with
      | None => mret None
      | Some p =>
          n ← load p;
          let l := left n in
          let r := right n in
          _ ← store_left p r;
          _ ← store_right p l;
          n ← load p;
          _ ← invert fuel (left n);
          n ← load p;
          _ ← invert fuel (right n);
          mret (Some p)
      end
  end.

(** [visualize] logs one string; the logged text is the result here.
    [buildTreeLines] is the inner closure, pushing onto [lines].

    The glyph literals are the box-drawing strings; in the source text
    their bytes show up encoded a second time. The properties below refer
    to them as [connector] and [continuation] only.

    [toString] is [Number.prototype.toString]: it belongs to the engine,
    not to the program, and is a parameter of [buildTreeLines] and
    [visualize]. *)
Definition connector (isLast : bool) : string :=
  if isLast then "└── " else "├── ".

Definition continuation (isLast : bool) : string :=
  if isLast then "    " else "│   ".

Definition newline : string := String (ascii_of_nat 10) "".

Definition not_null (o : option loc) : bool :=
  match o with
  | Some _ => true
  | None => false
  end.

Fixpoint buildTreeLines (toString : Z → string) (fuel : nat)
    (node : option loc) (prefix : string) (isLast : bool)
    (lines : list string) : M (list string) :=
  match fuel with
  | O => fail
  | S fuel =>
      match node with
      | None => mret lines
      | Some p =>
          n ← load p;
          let value := toString (value n) in
          let lines := lines ++ [(prefix +:+ connector isLast) +:+ value] in
          let newPrefix := prefix +:+ continuation isLast in
          n ← load p;
          let hasRight := not_null (right n) in
          let hasLeft := not_null (left n) in
          lines ← (if hasRight
                   then n ← load p;
                        buildTreeLines toString fuel (right n) newPrefix
                          (negb hasLeft) lines
                   else mret lines);
          if hasLeft
          then n ← load p;
               buildTreeLines toString fuel (left n) newPrefix true lines
          else mret lines
      end
  end.

Definition visualize (toString : Z → string) (fuel : nat) : M string :=
  r ← get_root;
  match r with
  | None => mret "Tree is empty"
  | Some p =>
      n ← load p;
      let lines := [toString (value n)] in
      let hasRight := not_null (right n) in
      let hasLeft := not_null (left n) in
      lines ← (if hasRight
               then n ← load p;
                    buildTreeLines toString fuel (right n) "" (negb hasLeft)
                      lines
               else mret lines);
      lines ← (if hasLeft
               then n ← load p;
                    buildTreeLines toString fuel (left n) "" true lines
               else mret lines);
      mret ((newline +:+ String.concat newline lines) +:+ newline)
  end.

(** Calls that leave out the [node] and [result] arguments: the defaults
    [node = this.root] and [result = []] apply. *)
Definition call_inOrderTraversal (fuel : nat) : M (list Z) :=
  r ← get_root; inOrderTraversal fuel r [].

Definition call_preOrderTraversal (fuel : nat) : M (list Z) :=
  r ← get_root; preOrderTraversal fuel r [].

Definition call_postOrderTraversal (fuel : nat) : M (list Z) :=
  r ← get_root; postOrderTraversal fuel r [].

Definition call_findMin (fuel : nat) : M (option Z) :=
  r ← get_root; findMin fuel r.

Definition call_findMax (fuel : nat) : M (option Z) :=
  r ← get_root; findMax fuel r.

Definition call_getHeight (fuel : nat) : M Z :=
  r ← get_root; getHeight fuel r.

Definition call_countNodes (fuel : nat) : M Z :=
  r ← get_root; countNodes fuel r.

Definition call_invert (fuel : nat) : M (option loc) :=
  r ← get_root; invert fuel r.

(** [values.map((val) => tree.insert(val))] *)
Fixpoint insert_all (fuel : nat) (values : list Z) : M (list js_value) :=
  match values with
  | [] => mret []
  | v :: values =>
      r ← insert fuel v;
      rs ← insert_all fuel values;
      mret (r :: rs)
  end.

(** The values of the demonstration driver. *)
Definition values : list Z :=
  [50; 10; 30; 25; 75; 60; 90; 5; 15; 27; 35; 55; 65; 85; 95].

(** ** The tree a heap represents *)

(** A binary tree whose nodes carry the reference of the heap object they
    stand for. *)
Inductive tree :=
| Leaf
| Br (p : loc) (l : tree) (v : Z) (r : tree).

Definition ptr (t : tree) : option loc :=
  match t with
  | Leaf => None
  | Br p _ _ _ => Some p
  end.

Fixpoint locs (t : tree) : list loc :=
  match t with
  | Leaf => []
  | Br p l _ r => p :: locs l ++ locs r
  end.

(** Every node of [t] is the object stored at its reference. *)
Fixpoint shape (h : gmap loc Node) (t : tree) : Prop :=
  match t with
  | Leaf => True
  | Br p l v r => h !! p = Some (mkNode v (ptr l) (ptr r)) ∧ shape h l ∧ shape h r
  end.

(** The nodes reachable from [o] in [h] form the tree [t]: no node is
    shared and there is no cycle. *)
Definition tree_at (h : gmap loc Node) (o : option loc) (t : tree) : Prop :=
  ptr t = o ∧ shape h t ∧ NoDup (locs t).

Definition represents (s : state) (t : tree) : Prop :=
  tree_at (heap s) (root s) t.

Fixpoint inorder (t : tree) : list Z :=
  match t with
  | Leaf => []
  | Br _ l v r => inorder l ++ v :: inorder r
  end.

Fixpoint preorder (t : tree) : list Z :=
  match t with
  | Leaf => []
  | Br _ l v r => v :: preorder l ++ preorder r
  end.

Fixpoint postorder (t : tree) : list Z :=
  match t with
  | Leaf => []
  | Br _ l v r => postorder l ++ postorder r ++ [v]
  end.

(** Number of nodes on the longest path from the root. *)
Fixpoint depth (t : tree) : nat :=
  match t with
  | Leaf => O
  | Br _ l _ r => S (Nat.max (depth l) (depth r))
  end.

Fixpoint tree_height (t : tree) : Z :=
  match t with
  | Leaf => -1
  | Br _ l _ r => Z.max (tree_height l) (tree_height r) + 1
  end.

Fixpoint tree_size (t : tree) : Z :=
  match t with
  | Leaf => 0
  | Br _ l _ r => 1 + tree_size l + tree_size r
  end.

Fixpoint mirror (t : tree) : tree :=
  match t with
  | Leaf => Leaf
  | Br p l v r => Br p (mirror r) v (mirror l)
  end.

(** The binary-search-tree property: keys of the left subtree are
    strictly smaller, keys of the right subtree strictly larger. *)
Fixpoint bst (t : tree) : Prop :=
  match t with
  | Leaf => True
  | Br _ l v r =>
      Forall (λ x, x < v) (inorder l) ∧ Forall (λ x, v < x) (inorder r) ∧
      bst l ∧ bst r
  end.

(** The comparison walk of [insert] and [search] on the tree. *)
Fixpoint tree_search (k : Z) (t : tree) : bool :=
  match t with
  | Leaf => false
  | Br _ l v r =>
      if decide (k = v) then true
      else if decide (k < v) then tree_search k l
      else tree_search k r
  end.

(** The tree after linking the fresh node [q] with key [k] where the walk
    ends; the tree itself when the walk meets [k]. *)
Fixpoint tree_insert (q : loc) (k : Z) (t : tree) : tree :=
  match t with
  | Leaf => Br q Leaf k Leaf
  | Br p l v r =>
      if decide (k = v) then t
      else if decide (k < v) then Br p (tree_insert q k l) v r
      else Br p l v (tree_insert q k r)
  end.

Fixpoint leftmost (t : tree) : option Z :=
  match t with
  | Leaf => None
  | Br _ l v _ =>
      match l with
      | Leaf => Some v
      | Br _ _ _ _ => leftmost l
      end
  end.

Fixpoint rightmost (t : tree) : option Z :=
  match t with
  | Leaf => None
  | Br _ _ v r =>
      match r with
      | Leaf => Some v
      | Br _ _ _ _ => rightmost r
      end
  end.

Definition is_node (t : tree) : bool :=
  match t with
  | Leaf => false
  | Br _ _ _ _ => true
  end.

(** The lines of a non-root subtree, top to bottom. *)
Fixpoint subtree_lines (toString : Z → string) (prefix : string)
    (isLast : bool) (t : tree) : list string :=
  match t with
  | Leaf => []
  | Br _ l v r =>
      ((prefix +:+ connector isLast) +:+ toString v)
      :: subtree_lines toString (prefix +:+ continuation isLast)
           (negb (is_node l)) r
      ++ subtree_lines toString (prefix +:+ continuation isLast) true l
  end.

Definition tree_lines (toString : Z → string) (t : tree) : list string :=
  match t with
  | Leaf => []
  | Br _ l v r =>
      toString v
      :: subtree_lines toString "" (negb (is_node l)) r
      ++ subtree_lines toString "" true l
  end.

(** What [insert] returns: [undefined] when the walk meets the key,
    [this] when it links the new node. *)
Definition insert_result (k : Z) (t : tree) : js_value :=
  if tree_search k t then JSUndefined else JSThis.

(** The text that [visualize] logs for a tree. *)
Definition tree_render (toString : Z → string) (t : tree) : string :=
  match t with
  | Leaf => "Tree is empty"
  | Br _ _ _ _ =>
      (newline +:+ String.concat newline (tree_lines toString t)) +:+ newline
  end.

(** The line feed character, and the lines of a text: the pieces between
    its line feeds. *)
Definition LF : ascii := ascii_of_nat 10.

Fixpoint lines_of (text : string) : list string :=
  match text with
  | EmptyString => [EmptyString]
  | String c text =>
      if decide (c = LF) then EmptyString :: lines_of text
      else
        match lines_of text with
        | line :: lines => String c line :: lines
        | [] => [String c EmptyString]
        end
  end.

(** The string holds no line feed. *)
Fixpoint no_LF (s : string) : bool :=
  match s with
  | EmptyString => true
  | String c s => if decide (c = LF) then false else no_LF s
  end.

(** Two states that differ at most in the child links of their nodes:
    the same root, the same references in use, the same key at each. *)
Definition links_only (s s' : state) : Prop :=
  root s' = root s ∧ ∀ q, value <$> heap s' !! q = value <$> heap s !! q.

(** [follows link h p e]: starting at [p] and following only the [link]
    field ([left] or [right]) leads to [e], whose [link] is [null]. *)
Inductive follows (link : Node → option loc) (h : gmap loc Node) : loc → loc → Prop :=
| follows_end p n :
    h !! p = Some n → link n = None → follows link h p p
| follows_step p n q e :
    h !! p = Some n → link n = Some q → follows link h q e → follows link h p e.

(** The states a caller can produce from a new tree with the mutating
    methods. *)
Inductive reachable : state → Prop :=
| reachable_new : reachable BinaryTree
| reachable_insert s fuel k res s' :
    reachable s → insert fuel k s = Some (res, s') → reachable s'
| reachable_invert s fuel res s' :
    reachable s → call_invert fuel s = Some (res, s') → reachable s'.

(** A tree in which no node has a left child. *)
Fixpoint right_spine (t : tree) : Prop :=
  match t with
  | Leaf => True
  | Br _ l _ r => l = Leaf ∧ right_spine r
  end.

(** ** A small tree for examples *)

(** The heap after [insert(50); insert(10); insert(75)] on a new tree,
    and the tree it represents. *)
Definition demo_state : state :=
  mkState (<[3%positive := mkNode 75 None None]>
           (<[2%positive := mkNode 10 None None]>
            (<[1%positive := mkNode 50 (Some 2%positive) (Some 3%positive)]> ∅)))
          (Some 1%positive).

Definition demo_tree : tree :=
  Br 1%positive (Br 2%positive Leaf 10 Leaf) 50 (Br 3%positive Leaf 75 Leaf).

(** ** [Array.prototype.myFilter] *)

(** An array element is a value [Some v] or [undefined] ([None]; a hole
    reads as [undefined] as well). The callback receives the element, its
    index and the array, and its result is used as a boolean; it is a
    function of its arguments and leaves the array alone. [n] counts the
    iterations of the [for] loop that remain. *)
Fixpoint myFilter_loop {A} (callbackFn : A → nat → list (option A) → bool)
    (this : list (option A)) (n i : nat) (result : list A) : list A :=
  match n with
  | O => result
  | S n =>
      let result :=
        match this !! i with
        | Some (Some v) => if callbackFn v i this then result ++ [v] else result
        | _ => result
        end in
      myFilter_loop callbackFn this n (S i) result
  end.

Definition myFilter {A} (callbackFn : A → nat → list (option A) → bool)
    (this : list (option A)) : list A :=
  myFilter_loop callbackFn this (length this) 0%nat [].

(** ** The generator examples *)

Module Generators.

(** A generator object is its state at the point where it is suspended
    together with [next], which runs the body up to the next [yield]
    ([Some] of the yielded value and the new state) or to its end
    ([None]). Numbers are integers, added exactly: so does the engine as
    long as the sum is a safe integer, and beyond that it rounds. *)

(** [Number.isSafeInteger]: the integers that the engine's numbers hold
    and add exactly. *)
Definition isSafeInteger (z : Z) : Prop := - 2 ^ 53 < z < 2 ^ 53.

(** [[...gen]]: call [next] until the generator is done. *)
Fixpoint spread {St A} (next : St → option (A * St)) (fuel : nat) (s : St)
  : option (list A) :=
  match fuel with
  | O => None
  | S fuel =>
      match next s with
      | None => Some []
      | Some (a, s') => cons a <$> spread next fuel s'
      end
  end.

(** [function* range(start, end, step = 1)]; the state is [current]. *)
Definition range_next (end_ step : Z) (current : Z) : option (Z * Z) :=
  if decide (current < end_) then Some (current, current + step) else None.

Definition range (fuel : nat) (start end_ step : Z) : option (list Z) :=
  spread (range_next end_ step) fuel start.

(** [array.slice(start, end)], with its treatment of negative and
    out-of-range indices. *)
Definition slice {A} (array : list A) (start end_ : Z) : list A :=
  let len := Z.of_nat (length array) in
  let k := if decide (start < 0) then Z.max (len + start) 0 else Z.min start len in
  let final := if decide (end_ < 0) then Z.max (len + end_) 0 else Z.min end_ len in
  take (Z.to_nat (final - k)) (drop (Z.to_nat k) array).

(** [function* batch(array, size)]; the state is the loop variable [i]. *)
Definition batch_next {A} (array : list A) (size : Z) (i : Z)
  : option (list A * Z) :=
  if decide (i < Z.of_nat (length array))
  then Some (slice array i (i + size), i + size)
  else None.

Definition batch {A} (fuel : nat) (array : list A) (size : Z)
  : option (list (list A)) :=
  spread (batch_next array size) fuel 0.

(** [function* slidingWindow(array, size)]; the state is [i]. *)
Definition slidingWindow_next {A} (array : list A) (size : Z) (i : Z)
  : option (list A * Z) :=
  if decide (i ≤ Z.of_nat (length array) - size)
  then Some (slice array i (i + size), i + 1)
  else None.

Definition slidingWindow {A} (fuel : nat) (array : list A) (size : Z)
  : option (list (list A)) :=
  spread (slidingWindow_next array size) fuel 0.

(** [function* unique(iterable)] over an array of numbers; the state is
    the set [seen] and the items not yet visited by the [for...of] loop. *)
Fixpoint unique_next (seen : gset Z) (rest : list Z)
  : option (Z * (gset Z * list Z)) :=
  match rest with
  | [] => None
  | item :: rest =>
      if decide (item ∈ seen) then unique_next seen rest
      else Some (item, ({[item]} ∪ seen, rest))
  end.

Definition unique (fuel : nat) (iterable : list Z) : option (list Z) :=
  spread (λ '(seen, rest), unique_next seen rest) fuel (∅, iterable).

(** [isPrime], the helper inside [function* primes()]; one unit of fuel
    per test of the [for] loop. *)
Fixpoint isPrime_loop (fuel : nat) (n i : Z) : option bool :=
  match fuel with
  | O => None
  | S fuel =>
      if decide (i * i ≤ n) then
        if decide (Z.rem n i = 0) then Some false
        else isPrime_loop fuel n (i + 1)
      else Some true
  end.

Definition isPrime (fuel : nat) (n : Z) : option bool :=
  if decide (n < 2) then Some false else isPrime_loop fuel n 2.

(** [function* fibonacci()]; the state is [(prev, curr)]. Its numbers
    grow past the integers that the engine adds exactly, so they are the
    engine's: a type [number] with the rounding addition [add], and
    [of_Z] for the number that an integer literal or counter denotes. *)
Definition fibonacci_init {number} (of_Z : Z → number) : number * number :=
  (of_Z 0, of_Z 1).

Definition fibonacci_next {number} (add : number → number → number)
    (s : number * number) : option (number * (number * number)) :=
  let '(prev, curr) := s in Some (curr, (curr, add prev curr)).

(** [getFibonacciSequence(count)]: [count] calls of [fib.next()]. *)
Fixpoint getFibonacciSequence_loop {number} (add : number → number → number)
    (n : nat) (fib : number * number) (result : list number) : list number :=
  match n with
  | O => result
  | S n =>
      match fibonacci_next add fib with
      | Some (value, fib) =>
          getFibonacciSequence_loop add n fib (result ++ [value])
      | None => result
      end
  end.

Definition getFibonacciSequence {number} (of_Z : Z → number)
    (add : number → number → number) (count : nat) : list number :=
  getFibonacciSequence_loop add count (fibonacci_init of_Z) [].

(** [function* combinations(arr, k)], as the list of the arrays it
    yields, in order: the outer loop runs [i] from 0 to
    [arr.length - k], the inner loop over the combinations of
    [arr.slice(i + 1)]. [k] is a natural number; [arr[i]] is then always
    inside the array. *)
Fixpoint combinations {A} (k : nat) (arr : list A) : list (list A) :=
  match k with
  | O => [[]]
  | S k' =>
      i ← seq 0 (length arr + 1 - k);
      match arr !! i with
      | Some x => combo ← combinations k' (drop (S i) arr); [x :: combo]
      | None => []
      end
  end.

End Generators.

(** ** The recursive [fibonacci] *)

(** [const fibonacci = (n) => { if (n < 2) return n; ... }], one unit of
    fuel per level of recursion. The argument is an integer, the result
    one of the engine's numbers, added with its [add]. *)
Fixpoint fibonacci {number} (of_Z : Z → number)
    (add : number → number → number) (fuel : nat) (n : Z) : option number :=
  match fuel with
  | O => None
  | S fuel =>
      if decide (n < 2) then Some (of_Z n)
      else
        a ← fibonacci of_Z add fuel (n - 1);
        b ← fibonacci of_Z add fuel (n - 2);
        Some (add a b)
  end.

(** The Fibonacci numbers 0, 1, 1, 2, 3, 5, ..., each the sum, by [add],
    of the two before it. *)
Fixpoint Fibonacci_pair {number} (of_Z : Z → number)
    (add : number → number → number) (n : nat) : number * number :=
  match n with
  | O => (of_Z 0, of_Z 1)
  | S n => let '(a, b) := Fibonacci_pair of_Z add n in (b, add a b)
  end.

Definition Fibonacci {number} (of_Z : Z → number)
    (add : number → number → number) (n : nat) : number :=
  fst (Fibonacci_pair of_Z add n).

(** * Properties *)

(** ** Running monadic code *)

Lemma bind_run {A B} (m : M A) (f : A → M B) s a s' :
  m s = Some (a, s') → (m ≫= f) s = f a s'.
Proof. unfold mbind, M_bind. by intros ->. Qed.

Lemma bind_inv {A B} (m : M A) (f : A → M B) s b s'' :
  (m ≫= f) s = Some (b, s'') →
  ∃ a s', m s = Some (a, s') ∧ f a s' = Some (b, s'').
Proof.
  unfold mbind, M_bind. destruct (m s) as [[a s']|]; [|done]. eauto.
Qed.

Lemma load_run s p n : heap s !! p = Some n → load p s = Some (n, s).
Proof. unfold load. by intros ->. Qed.

Lemma load_inv s p n s' : load p s = Some (n, s') → s' = s ∧ heap s !! p = Some n.
Proof. unfold load. destruct (heap s !! p); naive_solver. Qed.

(** Consume the leading [load] of the goal with a known heap cell. *)
Ltac run_load H :=
  rewrite (bind_run (load _) _ _ _ _ (load_run (mkState _ _) _ _ H)); simpl.

(** Consume the leading call of the goal with an equation for it. *)
Ltac run_with E := rewrite (bind_run _ _ _ _ _ E); simpl.

(** Decide a closed decidable proposition by evaluation. *)
Ltac by_eval := apply (bool_decide_unpack _); vm_compute; exact I.

(** ** Facts about represented trees *)

Lemma shape_agree h h' t :
  (∀ p, p ∈ locs t → h' !! p = h !! p) → shape h t → shape h' t.
Proof.
  induction t as [|p l IHl v r IHr]; simpl; [done|].
  intros Hag (Hp & Hl & Hr). split_and!.
  - rewrite Hag; [done|]. set_solver.
  - apply IHl; [|done]. intros q Hq. apply Hag. set_solver.
  - apply IHr; [|done]. intros q Hq. apply Hag. set_solver.
Qed.

Lemma shape_lookup h t p : shape h t → p ∈ locs t → is_Some (h !! p).
Proof.
  induction t as [|q l IHl v r IHr]; simpl; [set_solver|].
  intros (Hq & Hl & Hr) Hin.
  apply elem_of_cons in Hin as [->|Hin]; [eauto|].
  apply elem_of_app in Hin as [Hin|Hin]; eauto.
Qed.

Lemma shape_lookup_eq h h' t q :
  shape h t → shape h' t → q ∈ locs t → h' !! q = h !! q.
Proof.
  induction t as [|p l IHl v r IHr]; simpl; [by rewrite elem_of_nil|].
  intros (Hp & Hl & Hr) (Hp' & Hl' & Hr') Hin.
  apply elem_of_cons in Hin as [->|Hin]; [congruence|].
  apply elem_of_app in Hin as [Hin|Hin]; auto.
Qed.

Lemma NoDup_locs_Br p l v r :
  NoDup (locs (Br p l v r)) ↔
  (p ∉ locs l) ∧ (p ∉ locs r) ∧ NoDup (locs l) ∧ NoDup (locs r) ∧
  (∀ q, q ∈ locs l → q ∉ locs r).
Proof.
  simpl. rewrite NoDup_cons, NoDup_app, not_elem_of_app. tauto.
Qed.

Lemma ptr_mirror t : ptr (mirror t) = ptr t.
Proof. by destruct t. Qed.

Lemma locs_mirror t : locs (mirror t) ≡ₚ locs t.
Proof.
  induction t as [|p l IHl v r IHr]; simpl; [done|].
  rewrite IHl, IHr. by rewrite (comm (++)).
Qed.

Lemma elem_of_locs_mirror q t : q ∈ locs (mirror t) ↔ q ∈ locs t.
Proof. by rewrite locs_mirror. Qed.

Lemma mirror_involutive t : mirror (mirror t) = t.
Proof. induction t; simpl; congruence. Qed.

Lemma depth_mirror t : depth (mirror t) = depth t.
Proof. induction t; simpl; lia. Qed.

(** ** The read-only methods compute the tree functions *)

Section read_only.
Context (h : gmap loc Node) (r : option loc).

Lemma inOrderTraversal_shape t fuel result :
  shape h t → (depth t < fuel)%nat →
  inOrderTraversal fuel (ptr t) result (mkState h r)
  = Some (result ++ inorder t, mkState h r).
Proof.
  revert fuel result.
  induction t as [|p l IHl v rt IHr]; intros [|fuel] result Hs Hf;
    simpl in *; try lia.
  - by rewrite app_nil_r.
  - destruct Hs as (Hp & Hl & Hr).
    assert (depth l < fuel)%nat as Fl by lia.
    assert (depth rt < fuel)%nat as Fr by lia.
    run_load Hp. run_with (IHl fuel result Hl Fl).
    run_load Hp. rewrite (IHr fuel _ Hr Fr).
    by rewrite <-!app_assoc.
Qed.

Lemma preOrderTraversal_shape t fuel result :
  shape h t → (depth t < fuel)%nat →
  preOrderTraversal fuel (ptr t) result (mkState h r)
  = Some (result ++ preorder t, mkState h r).
Proof.
  revert fuel result.
  induction t as [|p l IHl v rt IHr]; intros [|fuel] result Hs Hf;
    simpl in *; try lia.
  - by rewrite app_nil_r.
  - destruct Hs as (Hp & Hl & Hr).
    assert (depth l < fuel)%nat as Fl by lia.
    assert (depth rt < fuel)%nat as Fr by lia.
    run_load Hp. run_with (IHl fuel (result ++ [v]) Hl Fl).
    run_load Hp. rewrite (IHr fuel _ Hr Fr).
    by rewrite <-!app_assoc.
Qed.

Lemma postOrderTraversal_shape t fuel result :
  shape h t → (depth t < fuel)%nat →
  postOrderTraversal fuel (ptr t) result (mkState h r)
  = Some (result ++ postorder t, mkState h r).
Proof.
  revert fuel result.
  induction t as [|p l IHl v rt IHr]; intros [|fuel] result Hs Hf;
    simpl in *; try lia.
  - by rewrite app_nil_r.
  - destruct Hs as (Hp & Hl & Hr).
    assert (depth l < fuel)%nat as Fl by lia.
    assert (depth rt < fuel)%nat as Fr by lia.
    run_load Hp. run_with (IHl fuel result Hl Fl).
    run_load Hp. run_with (IHr fuel (result ++ postorder l) Hr Fr).
    run_load Hp. by rewrite <-!app_assoc.
Qed.

Lemma getHeight_shape t fuel :
  shape h t → (depth t < fuel)%nat →
  getHeight fuel (ptr t) (mkState h r) = Some (tree_height t, mkState h r).
Proof.
  revert fuel.
  induction t as [|p l IHl v rt IHr]; intros [|fuel] Hs Hf;
    simpl in *; try lia; [done|].
  destruct Hs as (Hp & Hl & Hr).
  assert (depth l < fuel)%nat as Fl by lia.
  assert (depth rt < fuel)%nat as Fr by lia.
  run_load Hp. run_with (IHl fuel Hl Fl).
  run_load Hp. run_with (IHr fuel Hr Fr). done.
Qed.

Lemma countNodes_shape t fuel :
  shape h t → (depth t < fuel)%nat →
  countNodes fuel (ptr t) (mkState h r) = Some (tree_size t, mkState h r).
Proof.
  revert fuel.
  induction t as [|p l IHl v rt IHr]; intros [|fuel] Hs Hf;
    simpl in *; try lia; [done|].
  destruct Hs as (Hp & Hl & Hr).
  assert (depth l < fuel)%nat as Fl by lia.
  assert (depth rt < fuel)%nat as Fr by lia.
  run_load Hp. run_with (IHl fuel Hl Fl).
  run_load Hp. run_with (IHr fuel Hr Fr). done.
Qed.

Lemma search_loop_shape k t fuel :
  shape h t → (depth t < fuel)%nat →
  search_loop fuel k (ptr t) (mkState h r) = Some (tree_search k t, mkState h r).
Proof.
  revert fuel.
  induction t as [|p l IHl v rt IHr]; intros [|fuel] Hs Hf;
    simpl in *; try lia; [done|].
  destruct Hs as (Hp & Hl & Hr).
  assert (depth l < fuel)%nat as Fl by lia.
  assert (depth rt < fuel)%nat as Fr by lia.
  run_load Hp. repeat case_decide; [done| |].
  - by apply IHl.
  - by apply IHr.
Qed.

Lemma findMin_loop_shape p l v rt fuel :
  shape h (Br p l v rt) → (depth l < fuel)%nat →
  ∃ k, leftmost (Br p l v rt) = Some k ∧
       findMin_loop fuel p (mkState h r) = Some (k, mkState h r).
Proof.
  revert p v rt fuel.
  induction l as [|q ll IHl w lr _]; intros p v rt [|fuel] Hs Hf;
    simpl in *; try lia.
  - destruct Hs as (Hp & _). run_load Hp. eauto.
  - destruct Hs as (Hp & Hl & _). run_load Hp.
    apply (IHl q w lr fuel Hl). lia.
Qed.

Lemma findMax_loop_shape p l v rt fuel :
  shape h (Br p l v rt) → (depth rt < fuel)%nat →
  ∃ k, rightmost (Br p l v rt) = Some k ∧
       findMax_loop fuel p (mkState h r) = Some (k, mkState h r).
Proof.
  revert p v l fuel.
  induction rt as [|q rl _ w rr IHr]; intros p v l [|fuel] Hs Hf;
    simpl in *; try lia.
  - destruct Hs as (Hp & _). run_load Hp. eauto.
  - destruct Hs as (Hp & _ & Hr). run_load Hp.
    apply (IHr q w rl fuel Hr). lia.
Qed.

Lemma findMin_shape t fuel :
  shape h t → (depth t ≤ fuel)%nat →
  findMin fuel (ptr t) (mkState h r) = Some (leftmost t, mkState h r).
Proof.
  destruct t as [|p l v rt]; intros Hs Hf; [done|].
  destruct (findMin_loop_shape p l v rt fuel Hs) as (k & -> & E);
    [simpl in Hf; lia|].
  unfold findMin; simpl. by run_with E.
Qed.

Lemma findMax_shape t fuel :
  shape h t → (depth t ≤ fuel)%nat →
  findMax fuel (ptr t) (mkState h r) = Some (rightmost t, mkState h r).
Proof.
  destruct t as [|p l v rt]; intros Hs Hf; [done|].
  destruct (findMax_loop_shape p l v rt fuel Hs) as (k & -> & E);
    [simpl in Hf; lia|].
  unfold findMax; simpl. by run_with E.
Qed.

End read_only.
Lemma not_null_ptr t : not_null (ptr t) = is_node t.
Proof. by destruct t. Qed.

Lemma subtree_lines_Leaf toString prefix isLast :
  subtree_lines toString prefix isLast Leaf = [].
Proof. done. Qed.

Lemma buildTreeLines_shape toString h r t fuel prefix isLast lines :
  shape h t → (depth t < fuel)%nat →
  buildTreeLines toString fuel (ptr t) prefix isLast lines (mkState h r)
  = Some (lines ++ subtree_lines toString prefix isLast t, mkState h r).
Proof.
  revert fuel prefix isLast lines.
  induction t as [|p l IHl v rt IHr]; intros [|fuel] prefix isLast lines Hs Hf;
    simpl in *; try lia.
  - by rewrite app_nil_r.
  - destruct Hs as (Hp & Hl & Hr).
    assert (depth l < fuel)%nat as Fl by lia.
    assert (depth rt < fuel)%nat as Fr by lia.
    run_load Hp. run_load Hp. rewrite !not_null_ptr.
    set (lines1 := lines ++ [(prefix +:+ connector isLast) +:+ toString v]).
    set (newPrefix := prefix +:+ continuation isLast).
    assert ((if is_node rt
             then n ← load p;
                  buildTreeLines toString fuel (right n) newPrefix (negb (is_node l)) lines1
             else mret lines1) (mkState h r)
            = Some (lines1 ++ subtree_lines toString newPrefix (negb (is_node l)) rt,
                    mkState h r)) as Er.
    { destruct (is_node rt) eqn:Ert.
      - run_load Hp. by apply IHr.
      - destruct rt; [|done]. simpl. by rewrite app_nil_r. }
    run_with Er.
    set (lines2 := lines1 ++ subtree_lines toString newPrefix (negb (is_node l)) rt).
    assert (lines ++ ((prefix +:+ connector isLast) +:+ toString v)
              :: subtree_lines toString newPrefix (negb (is_node l)) rt
              ++ subtree_lines toString newPrefix true l
            = lines2 ++ subtree_lines toString newPrefix true l) as ->.
    { unfold lines2, lines1. by rewrite <-!app_assoc. }
    destruct (is_node l) eqn:El.
    + run_load Hp. by apply IHl.
    + destruct l; [|done]. simpl. by rewrite app_nil_r.
Qed.

(** ** [invert] *)

Lemma store_left_run s p o n :
  heap s !! p = Some n →
  store_left p o s
  = Some (tt, mkState (<[p := mkNode (value n) o (right n)]> (heap s)) (root s)).
Proof. unfold store_left. by intros ->. Qed.

Lemma store_right_run s p o n :
  heap s !! p = Some n →
  store_right p o s
  = Some (tt, mkState (<[p := mkNode (value n) (left n) o]> (heap s)) (root s)).
Proof. unfold store_right. by intros ->. Qed.

Lemma invert_shape t : ∀ h r fuel,
  shape h t → NoDup (locs t) → (depth t < fuel)%nat →
  ∃ h', invert fuel (ptr t) (mkState h r) = Some (ptr t, mkState h' r) ∧
        shape h' (mirror t) ∧
        (∀ q, q ∉ locs t → h' !! q = h !! q).
Proof.
  induction t as [|p l IHl v rt IHr]; intros h r [|fuel] Hs Hnd Hf;
    simpl in *; try lia.
  { by exists h. }
  destruct Hs as (Hp & Hl & Hr).
  change (NoDup (locs (Br p l v rt))) in Hnd.
  apply NoDup_locs_Br in Hnd as (Hpl & Hpr & Hndl & Hndr & Hdisj).
  assert (depth l < fuel)%nat as Fl by lia.
  assert (depth rt < fuel)%nat as Fr by lia.
  run_load Hp.
  run_with (store_left_run (mkState h r) p (ptr rt) _ Hp).
  set (h1 := <[p:=mkNode v (ptr rt) (ptr rt)]> h).
  assert (h1 !! p = Some (mkNode v (ptr rt) (ptr rt))) as Hp1
    by apply lookup_insert_eq.
  run_with (store_right_run (mkState h1 r) p (ptr l) _ Hp1).
  set (h2 := <[p:=mkNode v (ptr rt) (ptr l)]> h1).
  assert (h2 !! p = Some (mkNode v (ptr rt) (ptr l))) as Hp2
    by apply lookup_insert_eq.
  assert (∀ q, q ≠ p → h2 !! q = h !! q) as Hfr2.
  { intros q Hq. unfold h2, h1. by rewrite !lookup_insert_ne. }
  run_load Hp2.
  destruct (IHr h2 r fuel) as (h3 & E3 & Hs3 & Hfr3); [|done|done|].
  { eapply shape_agree; [|exact Hr]. intros q Hq. apply Hfr2. by intros ->. }
  run_with E3.
  assert (h3 !! p = Some (mkNode v (ptr rt) (ptr l))) as Hp3
    by (by rewrite Hfr3).
  run_load Hp3.
  destruct (IHl h3 r fuel) as (h4 & E4 & Hs4 & Hfr4); [|done|done|].
  { eapply shape_agree; [|exact Hl]. intros q Hq.
    rewrite Hfr3 by by apply Hdisj. apply Hfr2. by intros ->. }
  run_with E4.
  exists h4. split_and!; [done| | | |].
  - rewrite !ptr_mirror, Hfr4; done.
  - eapply shape_agree; [|exact Hs3]. intros q Hq. apply Hfr4.
    rewrite elem_of_locs_mirror in Hq. intros Hq'. exact (Hdisj q Hq' Hq).
  - done.
  - intros q Hq. apply not_elem_of_cons in Hq as [Hqp Hq].
    apply not_elem_of_app in Hq as [Hql Hqr].
    rewrite Hfr4, Hfr3 by done. by apply Hfr2.
Qed.

Lemma links_only_refl s : links_only s s.
Proof. by split. Qed.

Lemma links_only_trans s1 s2 s3 :
  links_only s1 s2 → links_only s2 s3 → links_only s1 s3.
Proof.
  intros [R1 K1] [R2 K2]. split; [congruence|].
  intros q. by rewrite K2, K1.
Qed.

Lemma links_only_dom s s' : links_only s s' → dom (heap s') = dom (heap s).
Proof.
  intros [_ K]. apply set_eq. intros q. rewrite !elem_of_dom.
  specialize (K q). destruct (heap s' !! q), (heap s !! q); simpl in K;
    try done; split; intros [? ?]; done.
Qed.

Lemma store_left_inv p o s u s' :
  store_left p o s = Some (u, s') → links_only s s'.
Proof.
  unfold store_left. destruct (heap s !! p) as [n|] eqn:Hp; [|done].
  intros [= _ <-]. split; [done|]. intros q. simpl.
  destruct (decide (p = q)) as [->|Hne].
  - by rewrite lookup_insert_eq, Hp.
  - by rewrite lookup_insert_ne.
Qed.

Lemma store_right_inv p o s u s' :
  store_right p o s = Some (u, s') → links_only s s'.
Proof.
  unfold store_right. destruct (heap s !! p) as [n|] eqn:Hp; [|done].
  intros [= _ <-]. split; [done|]. intros q. simpl.
  destruct (decide (p = q)) as [->|Hne].
  - by rewrite lookup_insert_eq, Hp.
  - by rewrite lookup_insert_ne.
Qed.

(** On any heap whatsoever, a call of [invert] that returns has written
    child links only. *)
Lemma invert_links_only fuel : ∀ o s res s',
  invert fuel o s = Some (res, s') → res = o ∧ links_only s s'.
Proof.
  induction fuel as [|fuel IH]; intros o s res s' E; [done|].
  destruct o as [p|]; simpl in E.
  2:{ injection E as <- <-. split; [done|apply links_only_refl]. }
  apply bind_inv in E as (n & s1 & E1 & E).
  apply load_inv in E1 as [-> _].
  apply bind_inv in E as (? & s2 & E2 & E). apply store_left_inv in E2.
  apply bind_inv in E as (? & s3 & E3 & E). apply store_right_inv in E3.
  apply bind_inv in E as (n4 & s4 & E4 & E). apply load_inv in E4 as [-> _].
  apply bind_inv in E as (? & s5 & E5 & E). apply IH in E5 as [_ E5].
  apply bind_inv in E as (n6 & s6 & E6 & E). apply load_inv in E6 as [-> _].
  apply bind_inv in E as (? & s7 & E7 & E). apply IH in E7 as [_ E7].
  injection E as <- <-. split; [done|].
  eauto using links_only_trans.
Qed.

(** ** [insert] *)

Lemma ptr_tree_insert q k t p : ptr t = Some p → ptr (tree_insert q k t) = Some p.
Proof. destruct t; [done|]. intros <-. simpl. by repeat case_decide. Qed.

Lemma locs_tree_insert q k t :
  locs (tree_insert q k t) ≡ₚ if tree_search k t then locs t else q :: locs t.
Proof.
  induction t as [|p l IHl v r IHr]; simpl; [done|].
  repeat case_decide; simpl; [done| |].
  - rewrite IHl. destruct (tree_search k l); [done|]. simpl. apply perm_swap.
  - rewrite IHr. destruct (tree_search k r); [done|].
    rewrite <-Permutation_middle. apply perm_swap.
Qed.

Lemma NoDup_locs_tree_insert q k t :
  q ∉ locs t → NoDup (locs t) → NoDup (locs (tree_insert q k t)).
Proof.
  intros Hq Hnd. rewrite locs_tree_insert.
  destruct (tree_search k t); [done|]. by apply NoDup_cons.
Qed.

Lemma tree_search_insert_id q k t :
  tree_search k t = true → tree_insert q k t = t.
Proof.
  induction t as [|p l IHl v r IHr]; simpl; [done|].
  repeat case_decide; [done| |]; intros E; f_equal; auto.
Qed.

Lemma depth_tree_insert q k t : (depth (tree_insert q k t) ≤ S (depth t))%nat.
Proof.
  induction t as [|p l IHl v r IHr]; simpl; [lia|].
  repeat case_decide; simpl; lia.
Qed.

Lemma insert_loop_shape q k t : ∀ h r fuel p,
  ptr t = Some p → shape h t → NoDup (locs t) → q ∉ locs t →
  h !! q = Some (mkNode k None None) → (depth t ≤ fuel)%nat →
  ∃ h', insert_loop fuel k q p (mkState h r)
        = Some (insert_result k t, mkState h' r) ∧
        shape h' (tree_insert q k t) ∧
        (∀ q', q' ∉ locs t → h' !! q' = h !! q') ∧
        (tree_search k t = true → h' = h).
Proof.
  unfold insert_result.
  induction t as [|c l IHl v rt IHr]; intros h r fuel p Hptr Hs Hnd Hq Hhq Hf;
    [done|].
  injection Hptr as ->.
  apply NoDup_locs_Br in Hnd as (Hpl & Hpr & Hndl & Hndr & Hdisj).
  destruct Hs as (Hp & Hl & Hr).
  apply not_elem_of_cons in Hq as [Hqp Hq].
  apply not_elem_of_app in Hq as [Hql Hqr].
  destruct fuel as [|fuel]; simpl in Hf; [lia|].
  assert (depth l ≤ fuel)%nat as Fl by lia.
  assert (depth rt ≤ fuel)%nat as Fr by lia.
  simpl. run_load Hp. repeat case_decide.
  - exists h. split_and!; done.
  - destruct (ptr l) as [pl|] eqn:Hptrl.
    2:{ destruct l; [simpl|done].
      run_with (store_left_run (mkState h r) p (Some q) _ Hp).
      eexists. split; [reflexivity|]. split_and!; try done.
      * apply lookup_insert_eq.
      * by rewrite lookup_insert_ne.
      * eapply shape_agree; [|exact Hr]. intros q' Hq'.
        rewrite lookup_insert_ne; [done|]. by intros ->.
      * intros q' Hq'. apply not_elem_of_cons in Hq' as [Hne _].
        by rewrite lookup_insert_ne. }
    + destruct (IHl h r fuel pl) as (h' & E & Hs' & Hfr & Hid); try done.
      exists h'. split; [done|]. simpl. split_and!; try done.
      * rewrite (ptr_tree_insert _ _ _ pl) by done. by rewrite Hfr.
      * eapply shape_agree; [|exact Hr]. intros q' Hq'. apply Hfr.
        intros Hq''. exact (Hdisj q' Hq'' Hq').
      * intros q' Hq'. apply not_elem_of_cons in Hq' as [_ Hq'].
        apply not_elem_of_app in Hq' as [Hq' _]. by apply Hfr.
  - destruct (ptr rt) as [pr|] eqn:Hptrr.
    2:{ destruct rt; [simpl|done].
      run_with (store_right_run (mkState h r) p (Some q) _ Hp).
      eexists. split; [reflexivity|]. split_and!; try done.
      * apply lookup_insert_eq.
      * eapply shape_agree; [|exact Hl]. intros q' Hq'.
        rewrite lookup_insert_ne; [done|]. by intros ->.
      * by rewrite lookup_insert_ne.
      * intros q' Hq'. apply not_elem_of_cons in Hq' as [Hne _].
        by rewrite lookup_insert_ne. }
    + destruct (IHr h r fuel pr) as (h' & E & Hs' & Hfr & Hid); try done.
      exists h'. split; [done|]. simpl. split_and!; try done.
      * rewrite (ptr_tree_insert _ _ _ pr) by done. by rewrite Hfr.
      * eapply shape_agree; [|exact Hl]. intros q' Hq'. apply Hfr.
        by apply Hdisj.
      * intros q' Hq'. apply not_elem_of_cons in Hq' as [_ Hq'].
        apply not_elem_of_app in Hq' as [_ Hq']. by apply Hfr.
Qed.

(** ** Facts about the tree functions *)

Lemma inorder_tree_insert q k t :
  inorder (tree_insert q k t)
  ≡ₚ if tree_search k t then inorder t else k :: inorder t.
Proof.
  induction t as [|p l IHl v r IHr]; simpl; [done|].
  repeat case_decide; simpl; [done| |].
  - rewrite IHl. by destruct (tree_search k l).
  - rewrite IHr. destruct (tree_search k r); [done|].
    by rewrite <-!Permutation_middle, perm_swap.
Qed.

Lemma tree_search_elem k t : tree_search k t = true → k ∈ inorder t.
Proof.
  induction t as [|p l IHl v r IHr]; simpl; [done|].
  repeat case_decide; set_solver.
Qed.

Lemma bst_tree_search k t : bst t → k ∈ inorder t → tree_search k t = true.
Proof.
  induction t as [|p l IHl v r IHr]; simpl; [set_solver|].
  intros (Hlt & Hgt & Hl & Hr) Hin.
  rewrite Forall_forall in Hlt, Hgt.
  apply elem_of_app in Hin as [Hin|Hin].
  - specialize (Hlt k Hin). repeat case_decide; try lia; auto.
  - apply elem_of_cons in Hin as [->|Hin].
    + by case_decide.
    + specialize (Hgt k Hin). repeat case_decide; try lia; auto.
Qed.

Lemma elem_of_inorder_tree_insert q k t x :
  x ∈ inorder (tree_insert q k t) ↔ x = k ∨ x ∈ inorder t.
Proof.
  rewrite inorder_tree_insert. destruct (tree_search k t) eqn:E.
  - apply tree_search_elem in E. split; [auto|]. by intros [->|?].
  - by rewrite elem_of_cons.
Qed.

Lemma bst_tree_insert q k t : bst t → bst (tree_insert q k t).
Proof.
  induction t as [|p l IHl v r IHr]; simpl.
  { intros _. split_and!; done. }
  intros (Hlt & Hgt & Hl & Hr).
  repeat case_decide; simpl; split_and!; auto.
  - rewrite Forall_forall in *. intros x Hx.
    apply elem_of_inorder_tree_insert in Hx as [->|Hx]; auto.
  - rewrite Forall_forall in *. intros x Hx.
    apply elem_of_inorder_tree_insert in Hx as [->|Hx]; [lia|auto].
Qed.

Lemma bst_sorted t : bst t → StronglySorted Z.lt (inorder t).
Proof.
  induction t as [|p l IHl v r IHr]; simpl; [constructor|].
  intros (Hlt & Hgt & Hl & Hr). rewrite Forall_forall in Hlt, Hgt.
  apply StronglySorted_app_2; [|auto|].
  - intros x1 x2 H1 H2. apply elem_of_cons in H2 as [->|H2]; [auto|].
    specialize (Hlt x1 H1). specialize (Hgt x2 H2). lia.
  - apply StronglySorted_cons. rewrite Forall_forall. auto.
Qed.

Lemma StronglySorted_lt_NoDup (l : list Z) : StronglySorted Z.lt l → NoDup l.
Proof.
  induction 1 as [|x l _ IH Hx]; constructor; [|done].
  rewrite Forall_forall in Hx. intros Hin. specialize (Hx x Hin). lia.
Qed.

Lemma StronglySorted_reverse (l : list Z) :
  StronglySorted Z.lt l → StronglySorted Z.gt (reverse l).
Proof.
  induction 1 as [|x l _ IH Hx]; [constructor|].
  rewrite reverse_cons. apply StronglySorted_app_2; [|done|repeat constructor].
  rewrite Forall_forall in Hx.
  intros x1 x2 H1 ->%list_elem_of_singleton.
  rewrite elem_of_reverse in H1. specialize (Hx x1 H1). lia.
Qed.

Lemma tree_search_tree_insert q k t : tree_search k (tree_insert q k t) = true.
Proof.
  induction t as [|p l IHl v r IHr]; simpl.
  - by case_decide.
  - destruct (decide (k = v)) as [->|Hne]; simpl.
    + by case_decide.
    + destruct (decide (k < v)); simpl; repeat case_decide; done.
Qed.

Lemma inorder_mirror t : inorder (mirror t) = reverse (inorder t).
Proof.
  induction t as [|p l IHl v r IHr]; simpl; [done|].
  rewrite IHl, IHr, reverse_app, reverse_cons. by rewrite <-app_assoc.
Qed.

Lemma preorder_inorder t : preorder t ≡ₚ inorder t.
Proof.
  induction t as [|p l IHl v r IHr]; simpl; [done|].
  rewrite IHl, IHr. apply Permutation_middle.
Qed.

Lemma postorder_inorder t : postorder t ≡ₚ inorder t.
Proof.
  induction t as [|p l IHl v r IHr]; simpl; [done|].
  by rewrite IHl, IHr, (comm (++) (inorder r)).
Qed.

Lemma length_inorder t : Z.of_nat (length (inorder t)) = tree_size t.
Proof.
  induction t as [|p l IHl v r IHr]; simpl; [done|].
  rewrite length_app. simpl. lia.
Qed.

Lemma tree_size_mirror t : tree_size (mirror t) = tree_size t.
Proof. induction t; simpl; lia. Qed.

(** ** Methods called on a state that represents a tree *)

Lemma tree_at_Leaf h : tree_at h None Leaf.
Proof. split_and!; [done|done|constructor]. Qed.

Lemma represents_BinaryTree : represents BinaryTree Leaf.
Proof. apply tree_at_Leaf. Qed.

Lemma represents_fresh s t : represents s t → fresh (dom (heap s)) ∉ locs t.
Proof.
  intros (_ & Hs & _) Hin. apply (is_fresh (dom (heap s))).
  apply elem_of_dom. by eapply shape_lookup.
Qed.

Lemma insert_represents s t k fuel :
  represents s t → (depth t ≤ fuel)%nat →
  let q := fresh (dom (heap s)) in
  ∃ s', insert fuel k s = Some (insert_result k t, s') ∧
        represents s' (tree_insert q k t) ∧
        (tree_search k t = true →
         s' = mkState (<[q := mkNode k None None]> (heap s)) (root s)).
Proof.
  intros Hrep Hf q. pose proof (represents_fresh s t Hrep) as Hq. fold q in Hq.
  destruct Hrep as (Hptr & Hs & Hnd). destruct s as [h r]; simpl in *.
  unfold insert.
  assert (new_Node k (mkState h r)
          = Some (q, mkState (<[q := mkNode k None None]> h) r)) as E by done.
  run_with E. clear E.
  set (h1 := <[q := mkNode k None None]> h).
  assert (h1 !! q = Some (mkNode k None None)) as Hq1 by apply lookup_insert_eq.
  assert (get_root (mkState h1 r) = Some (r, mkState h1 r)) as E by done.
  run_with E. clear E.
  assert (shape h1 t) as Hs1.
  { eapply shape_agree; [|exact Hs]. intros p Hp. unfold h1.
    rewrite lookup_insert_ne; [done|]. by intros ->. }
  destruct t as [|p l v rt]; simpl in Hptr; subst r.
  - eexists. split; [reflexivity|]. split_and!; try done.
    split_and!; simpl; [done|done|]. apply NoDup_singleton.
  - destruct (insert_loop_shape q k (Br p l v rt) h1 (Some p) fuel p)
      as (h' & E & Hs' & Hfr & Hid); try done.
    exists (mkState h' (Some p)). split; [done|]. split_and!.
    + split_and!; simpl root; simpl heap.
      * by apply ptr_tree_insert.
      * done.
      * by apply NoDup_locs_tree_insert.
    + intros Hfound. by rewrite (Hid Hfound).
Qed.

Lemma insert_all_represents keys : ∀ s t fuel,
  represents s t → bst t → (depth t + length keys ≤ fuel)%nat →
  ∃ rs s' t', insert_all fuel keys s = Some (rs, s') ∧
              represents s' t' ∧ bst t' ∧
              (depth t' ≤ depth t + length keys)%nat ∧
              (∀ k, k ∈ inorder t' ↔ k ∈ inorder t ∨ k ∈ keys).
Proof.
  induction keys as [|k keys IH]; intros s t fuel Hrep Hbst Hf; simpl in *.
  { exists [], s, t. split_and!; [done|done|done|lia|].
    intros k. rewrite elem_of_nil. tauto. }
  destruct (insert_represents s t k fuel Hrep) as (s1 & E1 & Hrep1 & _); [lia|].
  set (t1 := tree_insert (fresh (dom (heap s))) k t) in *.
  pose proof (depth_tree_insert (fresh (dom (heap s))) k t) as Hd. fold t1 in Hd.
  destruct (IH s1 t1 fuel Hrep1) as (rs & s' & t' & E & Hrep' & Hbst' & Hd' & Hin).
  { by apply bst_tree_insert. }
  { lia. }
  run_with E1. run_with E.
  exists (insert_result k t :: rs), s', t'. split_and!; [done|done|done|lia|].
  intros x. rewrite Hin. unfold t1. rewrite elem_of_inorder_tree_insert.
  rewrite elem_of_cons. tauto.
Qed.

Lemma get_root_run s : get_root s = Some (root s, s).
Proof. done. Qed.

Section calls.
Context (s : state) (t : tree) (fuel : nat).
Context (Hrep : represents s t) (Hfuel : (depth t < fuel)%nat).

Lemma call_inOrderTraversal_represents :
  call_inOrderTraversal fuel s = Some (inorder t, s).
Proof.
  destruct Hrep as (Hptr & Hs & _). destruct s as [h r]; simpl in *; subst r.
  unfold call_inOrderTraversal. run_with (get_root_run (mkState h (ptr t))).
  by rewrite inOrderTraversal_shape.
Qed.

Lemma call_preOrderTraversal_represents :
  call_preOrderTraversal fuel s = Some (preorder t, s).
Proof.
  destruct Hrep as (Hptr & Hs & _). destruct s as [h r]; simpl in *; subst r.
  unfold call_preOrderTraversal. run_with (get_root_run (mkState h (ptr t))).
  by rewrite preOrderTraversal_shape.
Qed.

Lemma call_postOrderTraversal_represents :
  call_postOrderTraversal fuel s = Some (postorder t, s).
Proof.
  destruct Hrep as (Hptr & Hs & _). destruct s as [h r]; simpl in *; subst r.
  unfold call_postOrderTraversal. run_with (get_root_run (mkState h (ptr t))).
  by rewrite postOrderTraversal_shape.
Qed.

Lemma call_getHeight_represents :
  call_getHeight fuel s = Some (tree_height t, s).
Proof.
  destruct Hrep as (Hptr & Hs & _). destruct s as [h r]; simpl in *; subst r.
  unfold call_getHeight. run_with (get_root_run (mkState h (ptr t))).
  by rewrite getHeight_shape.
Qed.

Lemma call_countNodes_represents :
  call_countNodes fuel s = Some (tree_size t, s).
Proof.
  destruct Hrep as (Hptr & Hs & _). destruct s as [h r]; simpl in *; subst r.
  unfold call_countNodes. run_with (get_root_run (mkState h (ptr t))).
  by rewrite countNodes_shape.
Qed.

Lemma call_findMin_represents :
  call_findMin fuel s = Some (leftmost t, s).
Proof.
  destruct Hrep as (Hptr & Hs & _). destruct s as [h r]; simpl in *; subst r.
  unfold call_findMin. run_with (get_root_run (mkState h (ptr t))).
  rewrite findMin_shape; [done|done|lia].
Qed.

Lemma call_findMax_represents :
  call_findMax fuel s = Some (rightmost t, s).
Proof.
  destruct Hrep as (Hptr & Hs & _). destruct s as [h r]; simpl in *; subst r.
  unfold call_findMax. run_with (get_root_run (mkState h (ptr t))).
  rewrite findMax_shape; [done|done|lia].
Qed.

Lemma search_represents k : search fuel k s = Some (tree_search k t, s).
Proof.
  destruct Hrep as (Hptr & Hs & _). destruct s as [h r]; simpl in *; subst r.
  unfold search. run_with (get_root_run (mkState h (ptr t))).
  destruct t as [|p l v rt]; [done|].
  by apply (search_loop_shape h (Some p) k (Br p l v rt)).
Qed.

Lemma call_invert_represents :
  ∃ s', call_invert fuel s = Some (root s, s') ∧
        represents s' (mirror t) ∧ links_only s s'.
Proof.
  destruct Hrep as (Hptr & Hs & Hnd). destruct s as [h r]; simpl in *; subst r.
  destruct (invert_shape t h (ptr t) fuel) as (h' & E & Hs' & _); try done.
  exists (mkState h' (ptr t)). unfold call_invert.
  run_with (get_root_run (mkState h (ptr t))). split_and!; [done| |].
  - split_and!; simpl; [apply ptr_mirror|done|by rewrite locs_mirror].
  - by apply invert_links_only in E as [_ E].
Qed.

End calls.

Lemma call_invert_frame s t fuel res s' :
  represents s t → (depth t < fuel)%nat →
  call_invert fuel s = Some (res, s') →
  ∀ q, q ∉ locs t → heap s' !! q = heap s !! q.
Proof.
  intros (Hptr & Hs & Hnd) Hf E. destruct s as [h r]; simpl in *; subst r.
  destruct (invert_shape t h (ptr t) fuel) as (h' & E' & _ & Hfr); try done.
  unfold call_invert in E.
  rewrite (bind_run _ _ _ _ _ (get_root_run (mkState h (ptr t)))) in E.
  simpl in E. rewrite E' in E. by injection E as _ <-.
Qed.

Lemma visualize_represents toString s t fuel :
  represents s t → (depth t < fuel)%nat →
  visualize toString fuel s = Some (tree_render toString t, s).
Proof.
  intros (Hptr & Hs & _) Hf. destruct s as [h r]; simpl in *; subst r.
  unfold visualize. run_with (get_root_run (mkState h (ptr t))).
  destruct t as [|p l v rt]; [done|]. simpl in *.
  destruct Hs as (Hp & Hl & Hr).
  run_load Hp. rewrite !not_null_ptr.
  assert ((if is_node rt
           then n ← load p;
                buildTreeLines toString fuel (right n) "" (negb (is_node l)) [toString v]
           else mret [toString v]) (mkState h (Some p))
          = Some ([toString v] ++ subtree_lines toString "" (negb (is_node l)) rt,
                  mkState h (Some p))) as Er.
  { destruct (is_node rt) eqn:Ert.
    - run_load Hp. apply buildTreeLines_shape; [done|lia].
    - destruct rt; [|done]. done. }
  run_with Er.
  assert (∀ lines,
          (if is_node l
           then n ← load p; buildTreeLines toString fuel (left n) "" true lines
           else mret lines) (mkState h (Some p))
          = Some (lines ++ subtree_lines toString "" true l, mkState h (Some p))) as El.
  { intros lines. destruct (is_node l) eqn:El.
    - run_load Hp. apply buildTreeLines_shape; [done|lia].
    - destruct l; [|done]. simpl. by rewrite app_nil_r. }
  run_with (El (toString v :: subtree_lines toString "" (negb (is_node l)) rt)).
  done.
Qed.

(** ** More fuel never changes a result *)

Lemma insert_loop_mono fuel : ∀ fuel' k q p s res,
  (fuel ≤ fuel')%nat →
  insert_loop fuel k q p s = Some res → insert_loop fuel' k q p s = Some res.
Proof.
  induction fuel as [|fuel IH]; intros [|fuel'] k q p s res Hle E;
    try done; [lia|].
  simpl in *. destruct res as [res s'].
  apply bind_inv in E as (cur & s1 & E1 & E). run_with E1.
  repeat case_decide; [done| |].
  - destruct (left cur); [|done]. apply IH; [lia|done].
  - destruct (right cur); [|done]. apply IH; [lia|done].
Qed.

Lemma insert_mono fuel fuel' k s res :
  (fuel ≤ fuel')%nat →
  insert fuel k s = Some res → insert fuel' k s = Some res.
Proof.
  intros Hle E. unfold insert in *. destruct res as [res s'].
  apply bind_inv in E as (q & s1 & E1 & E). run_with E1.
  apply bind_inv in E as (r & s2 & E2 & E). run_with E2.
  destruct r; [|done]. by apply (insert_loop_mono fuel).
Qed.

Lemma insert_all_mono fuel fuel' keys : ∀ s res,
  (fuel ≤ fuel')%nat →
  insert_all fuel keys s = Some res → insert_all fuel' keys s = Some res.
Proof.
  induction keys as [|k keys IH]; intros s [rs s'] Hle E; simpl in *; [done|].
  apply bind_inv in E as (r & s1 & E1 & E).
  run_with (insert_mono fuel fuel' k s _ Hle E1).
  apply bind_inv in E as (rs' & s2 & E2 & E).
  by run_with (IH s1 _ Hle E2).
Qed.

Lemma getHeight_mono fuel : ∀ fuel' o s res,
  (fuel ≤ fuel')%nat →
  getHeight fuel o s = Some res → getHeight fuel' o s = Some res.
Proof.
  induction fuel as [|fuel IH]; intros [|fuel'] o s res Hle E;
    try done; [lia|].
  simpl in *. destruct o as [p|]; [|done]. destruct res as [z s'].
  assert (fuel ≤ fuel')%nat as Hle' by lia.
  apply bind_inv in E as (n1 & s1 & E1 & E). run_with E1.
  apply bind_inv in E as (hl & s2 & E2 & E). run_with (IH fuel' _ _ _ Hle' E2).
  apply bind_inv in E as (n3 & s3 & E3 & E). run_with E3.
  apply bind_inv in E as (hr & s4 & E4 & E). by run_with (IH fuel' _ _ _ Hle' E4).
Qed.

Lemma invert_mono fuel : ∀ fuel' o s res,
  (fuel ≤ fuel')%nat →
  invert fuel o s = Some res → invert fuel' o s = Some res.
Proof.
  induction fuel as [|fuel IH]; intros [|fuel'] o s res Hle E;
    try done; [lia|].
  simpl in *. destruct o as [p|]; [|done]. destruct res as [z s'].
  assert (fuel ≤ fuel')%nat as Hle' by lia.
  apply bind_inv in E as (n1 & s1 & E1 & E). run_with E1.
  apply bind_inv in E as (? & s2 & E2 & E). run_with E2.
  apply bind_inv in E as (? & s3 & E3 & E). run_with E3.
  apply bind_inv in E as (n4 & s4 & E4 & E). run_with E4.
  apply bind_inv in E as (? & s5 & E5 & E). run_with (IH fuel' _ _ _ Hle' E5).
  apply bind_inv in E as (n6 & s6 & E6 & E). run_with E6.
  apply bind_inv in E as (? & s7 & E7 & E). by run_with (IH fuel' _ _ _ Hle' E7).
Qed.

(** ** Every reachable state represents a tree *)

Lemma reachable_represents s : reachable s → ∃ t, represents s t.
Proof.
  induction 1 as [|s fuel k res s' _ [t Hrep] E|s fuel res s' _ [t Hrep] E].
  - exists Leaf. apply represents_BinaryTree.
  - destruct (insert_represents s t k (Nat.max fuel (depth t)) Hrep)
      as (s1 & E1 & Hrep1 & _); [lia|].
    apply (insert_mono fuel (Nat.max fuel (depth t))) in E; [|lia].
    rewrite E in E1. injection E1 as _ <-. eauto.
  - destruct (call_invert_represents s t (Nat.max fuel (S (depth t))) Hrep)
      as (s1 & E1 & Hrep1 & _); [lia|].
    unfold call_invert in *.
    apply bind_inv in E as (o & s2 & E2 & E).
    rewrite (bind_run _ _ _ _ _ E2) in E1.
    apply (invert_mono fuel (Nat.max fuel (S (depth t)))) in E; [|lia].
    rewrite E in E1. injection E1 as _ <-. eauto.
Qed.

(** ** Following one link to the end *)

Lemma follows_left_leftmost h p l v r :
  shape h (Br p l v r) →
  ∃ e n, follows left h p e ∧ h !! e = Some n ∧
         leftmost (Br p l v r) = Some (value n).
Proof.
  revert p v r. induction l as [|q ll IHl w lr _]; intros p v r (Hp & Hl & _).
  - exists p, (mkNode v None (ptr r)). split_and!; [|done|done].
    by eapply follows_end.
  - destruct (IHl q w lr Hl) as (e & n & Hfol & He & Hm).
    exists e, n. split_and!; [|done|done].
    by eapply follows_step.
Qed.

Lemma follows_right_rightmost h p l v r :
  shape h (Br p l v r) →
  ∃ e n, follows right h p e ∧ h !! e = Some n ∧
         rightmost (Br p l v r) = Some (value n).
Proof.
  revert p v l. induction r as [|q rl _ w rr IHr]; intros p v l (Hp & _ & Hr).
  - exists p, (mkNode v (ptr l) None). split_and!; [|done|done].
    by eapply follows_end.
  - destruct (IHr q w rl Hr) as (e & n & Hfol & He & Hm).
    exists e, n. split_and!; [|done|done].
    by eapply follows_step.
Qed.

(** The end of a link chain is unique. *)
Lemma follows_unique link h p e e' :
  follows link h p e → follows link h p e' → e = e'.
Proof.
  induction 1 as [p n Hp Hn|p n q e Hp Hn _ IH]; inversion 1; simplify_eq; auto.
Qed.

(** ** The example tree *)

Example demo_state_built :
  snd <$> insert_all 2 [50; 10; 75] BinaryTree = Some demo_state.
Proof. vm_compute. reflexivity. Qed.

Example represents_demo : represents demo_state demo_tree.
Proof. split_and!; [reflexivity|simpl; split_and!; done|by_eval]. Qed.

Example bst_demo : bst demo_tree.
Proof. simpl. split_and!; try done; repeat constructor; lia. Qed.

Example reachable_demo : reachable demo_state.
Proof.
  assert (∃ s1 s2, insert 2 50 BinaryTree = Some (JSThis, s1) ∧
                   insert 2 10 s1 = Some (JSThis, s2) ∧
                   insert 2 75 s2 = Some (JSThis, demo_state))
    as (s1 & s2 & E1 & E2 & E3).
  { eexists _, _. split_and!; vm_compute; reflexivity. }
  eauto using reachable.
Qed.

(** ** The driver's scenario, evaluated *)
Example driver_inOrder :
  fst <$> (_ ← insert_all 6 values; call_inOrderTraversal 6) BinaryTree
  = Some [5; 10; 15; 25; 27; 30; 35; 50; 55; 60; 65; 75; 85; 90; 95].
Proof. vm_compute. reflexivity. Qed.

Example driver_preOrder :
  fst <$> (_ ← insert_all 6 values; call_preOrderTraversal 6) BinaryTree
  = Some [50; 10; 5; 30; 25; 15; 27; 35; 75; 60; 55; 65; 90; 85; 95].
Proof. vm_compute. reflexivity. Qed.

Example driver_postOrder :
  fst <$> (_ ← insert_all 6 values; call_postOrderTraversal 6) BinaryTree
  = Some [5; 15; 27; 25; 35; 30; 10; 55; 65; 60; 85; 95; 90; 75; 50].
Proof. vm_compute. reflexivity. Qed.

Example driver_search :
  fst <$> (_ ← insert_all 6 values; search 6 75) BinaryTree = Some true ∧
  fst <$> (_ ← insert_all 6 values; search 6 20) BinaryTree = Some false ∧
  fst <$> (_ ← insert_all 6 values; search 6 60) BinaryTree = Some true.
Proof. split_and!; vm_compute; reflexivity. Qed.

Example driver_min_max_count :
  fst <$> (_ ← insert_all 6 values; call_findMin 6) BinaryTree = Some (Some 5) ∧
  fst <$> (_ ← insert_all 6 values; call_findMax 6) BinaryTree = Some (Some 95) ∧
  fst <$> (_ ← insert_all 6 values; call_countNodes 6) BinaryTree = Some 15.
Proof. split_and!; vm_compute; reflexivity. Qed.

Example driver_inverted_inOrder :
  fst <$> (_ ← insert_all 6 values; _ ← call_invert 6; call_inOrderTraversal 6)
            BinaryTree
  = Some [95; 90; 85; 75; 65; 60; 55; 50; 35; 30; 27; 25; 15; 10; 5].
Proof. vm_compute. reflexivity. Qed.

Example demo_visualize :
  fst <$> visualize pretty 2 demo_state
  = Some (String.concat newline [""; "50"; "├── 75"; "└── 10"; ""]).
Proof. vm_compute. reflexivity. Qed.

(** ** Lines of a text *)

Lemma lines_of_no_LF s : no_LF s = true → lines_of s = [s].
Proof.
  induction s as [|c s IH]; simpl; [done|].
  case_decide; [done|]. intros Hs. by rewrite (IH Hs).
Qed.

Lemma lines_of_app_LF s rest :
  no_LF s = true → lines_of (s +:+ String LF rest) = s :: lines_of rest.
Proof.
  induction s as [|c s IH]; simpl.
  - done.
  - case_decide; [done|]. intros Hs. by rewrite (IH Hs).
Qed.

Lemma lines_of_not_nil s : lines_of s ≠ [].
Proof.
  destruct s as [|c s]; simpl; [done|].
  case_decide; [done|]. by destruct (lines_of s).
Qed.

Lemma lines_of_snoc_LF s : lines_of (s +:+ String LF "") = lines_of s ++ [""].
Proof.
  induction s as [|c s IH]; simpl.
  - done.
  - case_decide; rewrite IH; [done|].
    pose proof (lines_of_not_nil s). by destruct (lines_of s).
Qed.

Lemma lines_of_concat ls :
  Forall (λ l, no_LF l = true) ls → ls ≠ [] →
  lines_of (String.concat (String LF "") ls) = ls.
Proof.
  induction 1 as [|l ls Hl Hls IH]; intros Hne; [done|].
  destruct ls as [|l' ls].
  - by apply lines_of_no_LF.
  - change (lines_of (l +:+ String LF (String.concat (String LF "") (l' :: ls)))
            = l :: l' :: ls).
    rewrite lines_of_app_LF by done. f_equal. by apply IH.
Qed.

Lemma no_LF_app a b : no_LF (a +:+ b) = no_LF a && no_LF b.
Proof. induction a as [|c a IH]; simpl; [done|]. by case_decide. Qed.

Lemma no_LF_connector b : no_LF (connector b) = true.
Proof. by destruct b. Qed.

Lemma no_LF_continuation b : no_LF (continuation b) = true.
Proof. by destruct b. Qed.

Lemma subtree_lines_no_LF toString t : ∀ prefix isLast,
  no_LF prefix = true →
  Forall (λ k, no_LF (toString k) = true) (inorder t) →
  Forall (λ l, no_LF l = true) (subtree_lines toString prefix isLast t).
Proof.
  induction t as [|p l IHl v r IHr]; intros prefix isLast Hp Hk; simpl.
  { constructor. }
  simpl in Hk. apply Forall_app in Hk as [Hkl Hk].
  apply Forall_cons in Hk as [Hv Hkr].
  assert (no_LF (prefix +:+ continuation isLast) = true) as Hp'.
  { by rewrite no_LF_app, Hp, no_LF_continuation. }
  constructor; [|apply Forall_app; split; auto].
  by rewrite !no_LF_app, Hp, no_LF_connector, Hv.
Qed.

(** The logged text of a non-empty tree, cut into lines. *)
Lemma lines_of_tree_render toString p l v r :
  Forall (λ k, no_LF (toString k) = true) (inorder (Br p l v r)) →
  lines_of (tree_render toString (Br p l v r))
  = [""; toString v]
    ++ subtree_lines toString "" (negb (is_node l)) r
    ++ subtree_lines toString "" true l ++ [""].
Proof.
  intros Hk. unfold tree_render, newline. fold LF.
  change (String LF "" +:+ ?x) with (String LF x).
  rewrite lines_of_snoc_LF.
  change (lines_of (String LF ?x)) with ("" :: lines_of x).
  rewrite lines_of_concat;
    [simpl; do 2 f_equal; by rewrite <-app_assoc| |done].
  pose proof Hk as Hk'. simpl in Hk'. apply Forall_app in Hk' as [Hkl Hk'].
  apply Forall_cons in Hk' as [Hv Hkr].
  constructor; [done|]. apply Forall_app.
  split; by apply subtree_lines_no_LF.
Qed.

(** * The specified behaviour of the methods *)

(** C1. Inserting pairwise-distinct keys, in any order, into an empty
    tree and then calling [inOrderTraversal()] returns exactly those keys
    in strictly ascending order. *)
Theorem inorder_of_inserted_keys_sorted (keys : list Z) :
  NoDup keys →
  ∃ n, ∀ fuel, (n ≤ fuel)%nat →
    ∃ result s,
      (_ ← insert_all fuel keys; call_inOrderTraversal fuel) BinaryTree
      = Some (result, s) ∧
      result ≡ₚ keys ∧ StronglySorted Z.lt result.
Proof.
  intros Hnd. exists (S (length keys)). intros fuel Hf.
  destruct (insert_all_represents keys BinaryTree Leaf fuel)
    as (rs & s & t & E & Hrep & Hbst & Hd & Hin);
    [apply represents_BinaryTree|done|simpl; lia|].
  simpl in Hd. exists (inorder t), s. run_with E.
  split_and!.
  - apply call_inOrderTraversal_represents; [done|lia].
  - apply NoDup_Permutation; [|done|].
    + by apply StronglySorted_lt_NoDup, bst_sorted.
    + intros k. rewrite Hin. simpl. rewrite elem_of_nil. tauto.
  - by apply bst_sorted.
Qed.

Lemma inorder_of_inserted_keys_sorted_witness :
  NoDup values ∧
  ∃ n, ∀ fuel, (n ≤ fuel)%nat →
    ∃ result s,
      (_ ← insert_all fuel values; call_inOrderTraversal fuel) BinaryTree
      = Some (result, s) ∧
      result ≡ₚ values ∧ StronglySorted Z.lt result.
Proof.
  split.
  - by_eval.
  - apply (inorder_of_inserted_keys_sorted values). by_eval.
Defined.

(** C2, as stated, fails. A duplicate insert returns [undefined], which
    is not the boolean [false], and a successful insert returns the tree
    object, which is not a boolean either. Moreover "every tree" is too
    wide: after [insert(50); insert(10); invert()] the stored key 10 is
    inserted once more, and the tree has three nodes instead of two. *)
Lemma insert_duplicate_returns_undefined :
  (∃ s s',
     insert 1 5 BinaryTree = Some (JSThis, s) ∧
     insert 1 5 s = Some (JSUndefined, s') ∧
     JSUndefined ≠ JSBoolean false ∧
     (∀ b, JSThis ≠ JSBoolean b)) ∧
  (∃ s s',
     snd <$> (_ ← insert_all 3 [50; 10]; call_invert 3) BinaryTree = Some s ∧
     call_inOrderTraversal 3 s = Some ([50; 10], s) ∧
     insert 3 10 s = Some (JSThis, s') ∧
     call_inOrderTraversal 3 s' = Some ([10; 50; 10], s')).
Proof.
  split.
  - eexists _, _. split_and!; [vm_compute; reflexivity..|done|done].
  - eexists _, _. split_and!; vm_compute; reflexivity.
Qed.

(** C2, amended. On a tree with the binary-search-tree property, [insert]
    of a key that is already stored returns [undefined] and leaves the
    root and every existing node object as they were (the same tree is
    represented); [insert] of a key that is not stored returns the tree
    object [this], and the tree then holds that key in addition. *)
Theorem insert_duplicate_rejected s t k :
  represents s t → bst t →
  ∃ n, ∀ fuel, (n ≤ fuel)%nat →
    ∃ res s', insert fuel k s = Some (res, s') ∧
      (k ∈ inorder t →
         res = JSUndefined ∧ root s' = root s ∧
         (∀ p, p ∈ dom (heap s) → heap s' !! p = heap s !! p) ∧
         represents s' t) ∧
      (k ∉ inorder t →
         res = JSThis ∧
         ∃ t', represents s' t' ∧ inorder t' ≡ₚ k :: inorder t).
Proof.
  intros Hrep Hbst. exists (depth t). intros fuel Hf.
  destruct (insert_represents s t k fuel Hrep Hf) as (s' & E & Hrep' & Hdup).
  exists (insert_result k t), s'. split; [done|]. unfold insert_result. split.
  - intros Hin. pose proof (bst_tree_search k t Hbst Hin) as Hfound.
    rewrite Hfound. rewrite (tree_search_insert_id _ k t Hfound) in Hrep'.
    rewrite (Hdup Hfound). simpl. split_and!; try done.
    + intros p Hp. rewrite lookup_insert_ne; [done|].
      intros <-. by apply (is_fresh (dom (heap s))).
    + by rewrite <-(Hdup Hfound).
  - intros Hnin. destruct (tree_search k t) eqn:Hfound.
    { by apply tree_search_elem in Hfound. }
    split; [done|]. eexists. split; [exact Hrep'|].
    by rewrite inorder_tree_insert, Hfound.
Qed.

Lemma insert_duplicate_rejected_witness :
  ∃ n, ∀ fuel, (n ≤ fuel)%nat →
    ∃ res s', insert fuel 10 demo_state = Some (res, s') ∧
      (10 ∈ inorder demo_tree →
         res = JSUndefined ∧ root s' = root demo_state ∧
         (∀ p, p ∈ dom (heap demo_state) → heap s' !! p = heap demo_state !! p) ∧
         represents s' demo_tree) ∧
      (10 ∉ inorder demo_tree →
         res = JSThis ∧
         ∃ t', represents s' t' ∧ inorder t' ≡ₚ 10 :: inorder demo_tree).
Proof.
  apply (insert_duplicate_rejected demo_state demo_tree 10).
  - split_and!; [reflexivity|simpl; split_and!; reflexivity|by_eval].
  - simpl. split_and!; try exact I; repeat constructor; lia.
Defined.

(** C3, as stated, fails: after [insert(50); insert(10); invert()] the key
    10 is stored in the tree (the in-order traversal lists it) and yet
    [search(10)] returns [false]. *)
Lemma search_misses_stored_key_after_invert :
  ∃ s,
    snd <$> (_ ← insert_all 3 [50; 10]; call_invert 3) BinaryTree = Some s ∧
    call_inOrderTraversal 3 s = Some ([50; 10], s) ∧
    search 3 10 s = Some (false, s).
Proof.
  eexists. split_and!; vm_compute; reflexivity.
Qed.

(** C3, amended. [search(k)] returns the outcome of the comparison walk
    and leaves the state as it was: [true] only if [k] is stored, and, on
    a tree with the binary-search-tree property, [true] whenever [k] is
    stored. Immediately after an [insert(k)] that reports success,
    [search(k)] returns [true], on every tree. *)
Theorem search_finds_walk_match s t k :
  represents s t →
  ∃ n, ∀ fuel, (n ≤ fuel)%nat →
    (∃ b, search fuel k s = Some (b, s) ∧
          b = tree_search k t ∧
          (b = true → k ∈ inorder t) ∧
          (bst t → k ∈ inorder t → b = true)) ∧
    (∀ s', insert fuel k s = Some (JSThis, s') →
           search fuel k s' = Some (true, s')).
Proof.
  intros Hrep. exists (S (S (depth t))). intros fuel Hf. split.
  - exists (tree_search k t). split_and!.
    + apply search_represents; [done|lia].
    + done.
    + apply tree_search_elem.
    + apply bst_tree_search.
  - intros s' E.
    destruct (insert_represents s t k fuel Hrep) as (s1 & E1 & Hrep1 & _); [lia|].
    rewrite E in E1. injection E1 as _ <-.
    pose proof (depth_tree_insert (fresh (dom (heap s))) k t).
    rewrite (search_represents s' _ fuel Hrep1); [|lia].
    by rewrite tree_search_tree_insert.
Qed.

Lemma search_finds_walk_match_witness :
  ∃ n, ∀ fuel, (n ≤ fuel)%nat →
    (∃ b, search fuel 75 demo_state = Some (b, demo_state) ∧
          b = tree_search 75 demo_tree ∧
          (b = true → 75 ∈ inorder demo_tree) ∧
          (bst demo_tree → 75 ∈ inorder demo_tree → b = true)) ∧
    (∀ s', insert fuel 75 demo_state = Some (JSThis, s') →
           search fuel 75 s' = Some (true, s')).
Proof.
  apply (search_finds_walk_match demo_state demo_tree 75).
  split_and!; [reflexivity|simpl; split_and!; reflexivity|by_eval].
Defined.

(** C4. Calling [invert()] twice restores the original structure: the
    state after the two calls is the state before them, so the pre-order
    traversal taken afterwards equals the one taken before. *)
Theorem invert_twice_restores_preorder s t :
  represents s t →
  ∃ n, ∀ fuel, (n ≤ fuel)%nat →
    ∃ pre s1 s2,
      call_preOrderTraversal fuel s = Some (pre, s) ∧
      call_invert fuel s = Some (root s, s1) ∧
      call_invert fuel s1 = Some (root s1, s2) ∧
      call_preOrderTraversal fuel s2 = Some (pre, s2) ∧
      s2 = s.
Proof.
  intros Hrep. exists (S (depth t)). intros fuel Hf.
  destruct (call_invert_represents s t fuel Hrep) as (s1 & E1 & Hrep1 & Hl1); [lia|].
  destruct (call_invert_represents s1 (mirror t) fuel Hrep1)
    as (s2 & E2 & Hrep2 & Hl2); [rewrite depth_mirror; lia|].
  rewrite mirror_involutive in Hrep2.
  exists (preorder t), s1, s2. split_and!; try done.
  - apply call_preOrderTraversal_represents; [done|lia].
  - apply call_preOrderTraversal_represents; [done|lia].
  - assert (heap s2 = heap s) as Hheap.
    { apply map_eq. intros q. destruct (decide (q ∈ locs t)) as [Hin|Hnin].
      - apply (shape_lookup_eq _ _ t); [apply Hrep|apply Hrep2|done].
      - rewrite (call_invert_frame s1 (mirror t) fuel (root s1) s2 Hrep1);
          [|rewrite depth_mirror; lia|done|by rewrite elem_of_locs_mirror].
        apply (call_invert_frame s t fuel (root s) s1 Hrep); [lia|done|done]. }
    destruct Hl1 as [R1 _], Hl2 as [R2 _]. destruct s, s2; simpl in *.
    congruence.
Qed.

Lemma invert_twice_restores_preorder_witness :
  ∃ n, ∀ fuel, (n ≤ fuel)%nat →
    ∃ pre s1 s2,
      call_preOrderTraversal fuel demo_state = Some (pre, demo_state) ∧
      call_invert fuel demo_state = Some (root demo_state, s1) ∧
      call_invert fuel s1 = Some (root s1, s2) ∧
      call_preOrderTraversal fuel s2 = Some (pre, s2) ∧
      s2 = demo_state.
Proof.
  apply (invert_twice_restores_preorder demo_state demo_tree).
  split_and!; [reflexivity|simpl; split_and!; reflexivity|by_eval].
Defined.

(** C5. On a tree with the binary-search-tree property, the in-order
    traversal after one [invert()] is the reverse of the in-order
    traversal before it, that is, the keys in strictly descending order. *)
Theorem invert_reverses_inorder s t :
  represents s t → bst t →
  ∃ n, ∀ fuel, (n ≤ fuel)%nat →
    ∃ ks s',
      call_inOrderTraversal fuel s = Some (ks, s) ∧
      call_invert fuel s = Some (root s, s') ∧
      call_inOrderTraversal fuel s' = Some (reverse ks, s') ∧
      StronglySorted Z.gt (reverse ks).
Proof.
  intros Hrep Hbst. exists (S (depth t)). intros fuel Hf.
  destruct (call_invert_represents s t fuel Hrep) as (s' & E & Hrep' & _); [lia|].
  exists (inorder t), s'. split_and!.
  - apply call_inOrderTraversal_represents; [done|lia].
  - done.
  - rewrite <-inorder_mirror.
    apply call_inOrderTraversal_represents; [done|rewrite depth_mirror; lia].
  - by apply StronglySorted_reverse, bst_sorted.
Qed.

Lemma invert_reverses_inorder_witness :
  ∃ n, ∀ fuel, (n ≤ fuel)%nat →
    ∃ ks s',
      call_inOrderTraversal fuel demo_state = Some (ks, demo_state) ∧
      call_invert fuel demo_state = Some (root demo_state, s') ∧
      call_inOrderTraversal fuel s' = Some (reverse ks, s') ∧
      StronglySorted Z.gt (reverse ks).
Proof.
  apply (invert_reverses_inorder demo_state demo_tree).
  - split_and!; [reflexivity|simpl; split_and!; reflexivity|by_eval].
  - simpl. split_and!; try exact I; repeat constructor; lia.
Defined.

(** The driver's tree: after inserting the driver's fifteen values,
    [getHeight()] returns 4, not the 3 that the driver's comment on that
    call gives (the path 50, 10, 30, 25, 15 has four edges). *)
Lemma height_of_driver_tree_is_four :
  fst <$> (_ ← insert_all 6 values; call_getHeight 6) BinaryTree = Some 4 ∧
  fst <$> (_ ← insert_all 6 values; call_getHeight 6) BinaryTree ≠ Some 3.
Proof. split; [vm_compute; reflexivity|vm_compute; discriminate]. Qed.

(** C6. [getHeight] returns -1 for an empty (absent) subtree, 0 for a
    leaf node, and 1 + max(height(left), height(right)) for an internal
    node. In the scenario, after inserting [50,10,30,25,75,60,90,5,15,27,
    35,55,65,85,95] into an empty tree, the code returns 4 where the
    driver's comment on the call says 3. *)
Theorem getHeight_spec :
  (∀ h r o t, tree_at h o t →
     ∃ n, ∀ fuel, (n ≤ fuel)%nat →
       let s := mkState h r in
       match t with
       | Leaf => getHeight fuel o s = Some (-1, s)
       | Br _ Leaf _ Leaf => getHeight fuel o s = Some (0, s)
       | Br _ l _ rt =>
           ∃ hl hr, getHeight fuel (ptr l) s = Some (hl, s) ∧
                    getHeight fuel (ptr rt) s = Some (hr, s) ∧
                    getHeight fuel o s = Some (1 + Z.max hl hr, s)
       end) ∧
  (∀ fuel, (6 ≤ fuel)%nat →
     fst <$> (_ ← insert_all fuel values; call_getHeight fuel) BinaryTree
     = Some 4).
Proof.
  split.
  - intros h r o t (<- & Hs & _). exists (S (depth t)). intros fuel Hf s.
    pose proof (getHeight_shape h r t fuel Hs ltac:(lia)) as E. fold s in E.
    destruct t as [|p l v rt]; [done|].
    assert (∃ hl hr, getHeight fuel (ptr l) s = Some (hl, s) ∧
                     getHeight fuel (ptr rt) s = Some (hr, s) ∧
                     getHeight fuel (ptr (Br p l v rt)) s
                     = Some (1 + Z.max hl hr, s)) as Hnode.
    { destruct Hs as (_ & Hl & Hr). simpl in Hf.
      exists (tree_height l), (tree_height rt). split_and!.
      - apply getHeight_shape; [done|lia].
      - apply getHeight_shape; [done|lia].
      - rewrite E. simpl. do 2 f_equal. lia. }
    destruct l, rt; try exact Hnode. exact E.
  - intros fuel Hf.
    assert (∃ rs s1 s2, insert_all 6 values BinaryTree = Some (rs, s1) ∧
                        call_getHeight 6 s1 = Some (4, s2))
      as (rs & s1 & s2 & E1 & E2).
    { eexists _, _, _. split; vm_compute; reflexivity. }
    run_with (insert_all_mono 6 fuel values _ _ Hf E1).
    unfold call_getHeight in *.
    apply bind_inv in E2 as (o & s3 & E3 & E2). run_with E3.
    by rewrite (getHeight_mono 6 fuel _ _ _ Hf E2).
Qed.

Lemma getHeight_spec_witness :
  ∃ n, ∀ fuel, (n ≤ fuel)%nat →
    ∃ hl hr,
      getHeight fuel (Some 2%positive) demo_state = Some (hl, demo_state) ∧
      getHeight fuel (Some 3%positive) demo_state = Some (hr, demo_state) ∧
      getHeight fuel (Some 1%positive) demo_state
      = Some (1 + Z.max hl hr, demo_state).
Proof.
  apply (proj1 getHeight_spec (heap demo_state) (root demo_state)
           (Some 1%positive) demo_tree).
  split_and!; [reflexivity|simpl; split_and!; reflexivity|by_eval].
Defined.

(** C7. [findMin()] returns the key of the node reached from the root by
    following only [left] links until there is none, [findMax()] the key
    reached by following only [right] links, and both return [null]
    (here [None]) on an empty tree; neither fails to return. *)
Theorem findMin_findMax_spec s t :
  represents s t →
  ∃ n, ∀ fuel, (n ≤ fuel)%nat →
    match root s with
    | None =>
        call_findMin fuel s = Some (None, s) ∧
        call_findMax fuel s = Some (None, s)
    | Some p =>
        (∃ e n, follows left (heap s) p e ∧ heap s !! e = Some n ∧
                call_findMin fuel s = Some (Some (value n), s)) ∧
        (∃ e n, follows right (heap s) p e ∧ heap s !! e = Some n ∧
                call_findMax fuel s = Some (Some (value n), s))
    end.
Proof.
  intros Hrep. exists (S (depth t)). intros fuel Hf.
  pose proof (call_findMin_represents s t fuel Hrep ltac:(lia)) as Emin.
  pose proof (call_findMax_represents s t fuel Hrep ltac:(lia)) as Emax.
  destruct Hrep as (Hptr & Hs & _). rewrite <-Hptr.
  destruct t as [|p l v r]; simpl; [done|]. split.
  - destruct (follows_left_leftmost _ _ _ _ _ Hs) as (e & n & Hfol & He & Hm).
    exists e, n. by rewrite Emin, Hm.
  - destruct (follows_right_rightmost _ _ _ _ _ Hs) as (e & n & Hfol & He & Hm).
    exists e, n. by rewrite Emax, Hm.
Qed.

Lemma findMin_findMax_spec_witness :
  ∃ n, ∀ fuel, (n ≤ fuel)%nat →
    (∃ e n, follows left (heap demo_state) 1%positive e ∧
            heap demo_state !! e = Some n ∧
            call_findMin fuel demo_state = Some (Some (value n), demo_state)) ∧
    (∃ e n, follows right (heap demo_state) 1%positive e ∧
            heap demo_state !! e = Some n ∧
            call_findMax fuel demo_state = Some (Some (value n), demo_state)).
Proof.
  apply (findMin_findMax_spec demo_state demo_tree).
  split_and!; [reflexivity|simpl; split_and!; reflexivity|by_eval].
Defined.

(** C8. [invert] writes only the [left]/[right] links of existing nodes:
    afterwards the root is the same, the same references are in use (no
    node created or destroyed), every node has the key it had, and so
    [countNodes()] and the multiset of keys in the tree are unchanged. *)
Theorem invert_preserves_nodes s t :
  represents s t →
  ∃ n, ∀ fuel, (n ≤ fuel)%nat →
    ∃ s' c ks ks',
      call_invert fuel s = Some (root s, s') ∧
      root s' = root s ∧
      dom (heap s') = dom (heap s) ∧
      (∀ q, value <$> heap s' !! q = value <$> heap s !! q) ∧
      call_countNodes fuel s = Some (c, s) ∧
      call_countNodes fuel s' = Some (c, s') ∧
      call_inOrderTraversal fuel s = Some (ks, s) ∧
      call_inOrderTraversal fuel s' = Some (ks', s') ∧
      ks' ≡ₚ ks.
Proof.
  intros Hrep. exists (S (depth t)). intros fuel Hf.
  destruct (call_invert_represents s t fuel Hrep) as (s' & E & Hrep' & Hl); [lia|].
  exists s', (tree_size t), (inorder t), (inorder (mirror t)).
  split_and!; try done.
  - apply Hl.
  - by apply links_only_dom.
  - apply Hl.
  - apply call_countNodes_represents; [done|lia].
  - rewrite <-tree_size_mirror.
    apply call_countNodes_represents; [done|rewrite depth_mirror; lia].
  - apply call_inOrderTraversal_represents; [done|lia].
  - apply call_inOrderTraversal_represents; [done|rewrite depth_mirror; lia].
  - rewrite inorder_mirror. apply reverse_Permutation.
Qed.

Lemma invert_preserves_nodes_witness :
  ∃ n, ∀ fuel, (n ≤ fuel)%nat →
    ∃ s' c ks ks',
      call_invert fuel demo_state = Some (root demo_state, s') ∧
      root s' = root demo_state ∧
      dom (heap s') = dom (heap demo_state) ∧
      (∀ q, value <$> heap s' !! q = value <$> heap demo_state !! q) ∧
      call_countNodes fuel demo_state = Some (c, demo_state) ∧
      call_countNodes fuel s' = Some (c, s') ∧
      call_inOrderTraversal fuel demo_state = Some (ks, demo_state) ∧
      call_inOrderTraversal fuel s' = Some (ks', s') ∧
      ks' ≡ₚ ks.
Proof.
  apply (invert_preserves_nodes demo_state demo_tree).
  split_and!; [reflexivity|simpl; split_and!; reflexivity|by_eval].
Defined.



(** C10. On every tree the in-order, pre-order and post-order traversals
    return sequences of the same length, which is [countNodes()], holding
    the same multiset of keys. *)
Theorem traversals_consistent s t :
  represents s t →
  ∃ n, ∀ fuel, (n ≤ fuel)%nat →
    ∃ ino pre post c,
      call_inOrderTraversal fuel s = Some (ino, s) ∧
      call_preOrderTraversal fuel s = Some (pre, s) ∧
      call_postOrderTraversal fuel s = Some (post, s) ∧
      call_countNodes fuel s = Some (c, s) ∧
      Z.of_nat (length ino) = c ∧
      Z.of_nat (length pre) = c ∧
      Z.of_nat (length post) = c ∧
      pre ≡ₚ ino ∧ post ≡ₚ ino.
Proof.
  intros Hrep. exists (S (depth t)). intros fuel Hf.
  exists (inorder t), (preorder t), (postorder t), (tree_size t).
  split_and!.
  - apply call_inOrderTraversal_represents; [done|lia].
  - apply call_preOrderTraversal_represents; [done|lia].
  - apply call_postOrderTraversal_represents; [done|lia].
  - apply call_countNodes_represents; [done|lia].
  - apply length_inorder.
  - rewrite preorder_inorder. apply length_inorder.
  - rewrite postorder_inorder. apply length_inorder.
  - apply preorder_inorder.
  - apply postorder_inorder.
Qed.

Lemma traversals_consistent_witness :
  ∃ n, ∀ fuel, (n ≤ fuel)%nat →
    ∃ ino pre post c,
      call_inOrderTraversal fuel demo_state = Some (ino, demo_state) ∧
      call_preOrderTraversal fuel demo_state = Some (pre, demo_state) ∧
      call_postOrderTraversal fuel demo_state = Some (post, demo_state) ∧
      call_countNodes fuel demo_state = Some (c, demo_state) ∧
      Z.of_nat (length ino) = c ∧
      Z.of_nat (length pre) = c ∧
      Z.of_nat (length post) = c ∧
      pre ≡ₚ ino ∧ post ≡ₚ ino.
Proof.
  apply (traversals_consistent demo_state demo_tree).
  split_and!; [reflexivity|simpl; split_and!; reflexivity|by_eval].
Defined.

(** * Further properties of the methods *)

(** ** More facts about the tree functions *)

Lemma tree_size_tree_insert q k t :
  tree_size (tree_insert q k t)
  = if tree_search k t then tree_size t else 1 + tree_size t.
Proof.
  induction t as [|p l IHl v r IHr]; simpl; [done|].
  repeat case_decide; simpl; [done| |].
  - rewrite IHl. destruct (tree_search k l); lia.
  - rewrite IHr. destruct (tree_search k r); lia.
Qed.

Lemma tree_search_tree_insert_ne q k k' t :
  k' ≠ k → tree_search k' (tree_insert q k t) = tree_search k' t.
Proof.
  intros Hne. induction t as [|p l IHl v r IHr]; simpl.
  - by repeat case_decide.
  - destruct (decide (k = v)) as [->|Hkv]; [done|].
    destruct (decide (k < v)); simpl; repeat case_decide; done.
Qed.

Lemma tree_height_depth t : tree_height t = Z.of_nat (depth t) - 1.
Proof. induction t; simpl; lia. Qed.

Lemma tree_height_tree_insert q k t :
  tree_height t ≤ tree_height (tree_insert q k t) ≤ tree_height t + 1.
Proof.
  induction t as [|p l IHl v r IHr]; simpl; [lia|].
  repeat case_decide; simpl; lia.
Qed.

Lemma tree_height_mirror t : tree_height (mirror t) = tree_height t.
Proof. induction t; simpl; lia. Qed.

Lemma tree_size_depth t :
  Z.of_nat (depth t) ≤ tree_size t ≤ 2 ^ Z.of_nat (depth t) - 1.
Proof.
  induction t as [|p l IHl v r IHr]; [simpl; lia|].
  change (depth (Br p l v r)) with (S (Nat.max (depth l) (depth r))).
  change (tree_size (Br p l v r)) with (1 + tree_size l + tree_size r).
  rewrite Nat2Z.inj_succ, Z.pow_succ_r by lia.
  assert (2 ^ Z.of_nat (depth l) ≤ 2 ^ Z.of_nat (Nat.max (depth l) (depth r)))
    by (apply Z.pow_le_mono_r; lia).
  assert (2 ^ Z.of_nat (depth r) ≤ 2 ^ Z.of_nat (Nat.max (depth l) (depth r)))
    by (apply Z.pow_le_mono_r; lia).
  lia.
Qed.

Lemma preorder_mirror t : preorder (mirror t) = reverse (postorder t).
Proof.
  induction t as [|p l IHl v r IHr]; simpl; [done|].
  by rewrite IHl, IHr, !reverse_app.
Qed.

Lemma postorder_mirror t : postorder (mirror t) = reverse (preorder t).
Proof.
  induction t as [|p l IHl v r IHr]; simpl; [done|].
  rewrite IHl, IHr, reverse_cons, reverse_app. by rewrite <-app_assoc.
Qed.

Lemma leftmost_mirror t : leftmost (mirror t) = rightmost t.
Proof.
  induction t as [|p l _ v r IHr]; simpl; [done|].
  rewrite <-IHr. by destruct r.
Qed.

Lemma rightmost_mirror t : rightmost (mirror t) = leftmost t.
Proof.
  induction t as [|p l IHl v r _]; simpl; [done|].
  rewrite <-IHl. by destruct l.
Qed.

Lemma leftmost_head t : leftmost t = head (inorder t).
Proof.
  induction t as [|p l IHl v r _]; simpl; [done|].
  destruct l as [|pl ll lv lr]; [done|]. rewrite IHl.
  simpl. by destruct (inorder ll).
Qed.

Lemma rightmost_last t : rightmost t = last (inorder t).
Proof.
  induction t as [|p l _ v r IHr]; simpl; [done|].
  rewrite last_app_cons.
  destruct r as [|pr rl rv rr]; [done|]. rewrite IHr.
  simpl. by destruct (inorder rl).
Qed.

Lemma StronglySorted_head_le (l : list Z) m x :
  StronglySorted Z.lt l → head l = Some m → x ∈ l → m ≤ x.
Proof.
  intros Hs Hm Hx. destruct l as [|y l]; [done|]. injection Hm as ->.
  apply StronglySorted_cons in Hs as [Hall _]. rewrite Forall_forall in Hall.
  apply elem_of_cons in Hx as [->|Hx]; [lia|]. specialize (Hall x Hx). lia.
Qed.

Lemma StronglySorted_last_le (l : list Z) m x :
  StronglySorted Z.lt l → last l = Some m → x ∈ l → x ≤ m.
Proof.
  intros Hs Hm Hx. apply last_Some in Hm as [l' ->].
  apply StronglySorted_app in Hs as (Hlt & _ & _).
  apply elem_of_app in Hx as [Hx|Hx].
  - specialize (Hlt x m Hx). rewrite list_elem_of_singleton in Hlt.
    specialize (Hlt eq_refl). lia.
  - apply list_elem_of_singleton in Hx. lia.
Qed.

(** On the mirror image of a search tree the comparison walk turns away
    from every key but the root's. *)
Lemma tree_search_mirror_above k t :
  bst t → Forall (λ x, k < x) (inorder t) → tree_search k (mirror t) = false.
Proof.
  induction t as [|p l IHl v r IHr]; simpl; [done|].
  intros (Hlt & Hgt & Hl & Hr) Hall.
  apply Forall_app in Hall as [_ Hall].
  apply Forall_cons in Hall as [Hkv _].
  repeat case_decide; try lia. apply IHr; [done|].
  eapply Forall_impl; [exact Hgt|]. simpl. intros. lia.
Qed.

Lemma tree_search_mirror_below k t :
  bst t → Forall (λ x, x < k) (inorder t) → tree_search k (mirror t) = false.
Proof.
  induction t as [|p l IHl v r IHr]; simpl; [done|].
  intros (Hlt & Hgt & Hl & Hr) Hall.
  apply Forall_app in Hall as [_ Hall].
  apply Forall_cons in Hall as [Hkv _].
  repeat case_decide; try lia. apply IHl; [done|].
  eapply Forall_impl; [exact Hlt|]. simpl. intros. lia.
Qed.

Lemma tree_search_mirror_bst k p l v r :
  bst (Br p l v r) →
  tree_search k (mirror (Br p l v r)) = bool_decide (k = v).
Proof.
  intros (Hlt & Hgt & Hl & Hr). simpl.
  destruct (decide (k = v)) as [->|Hne].
  - by rewrite bool_decide_eq_true_2.
  - rewrite bool_decide_eq_false_2 by done. case_decide.
    + apply tree_search_mirror_above; [done|].
      eapply Forall_impl; [exact Hgt|]. simpl. intros. lia.
    + apply tree_search_mirror_below; [done|].
      eapply Forall_impl; [exact Hlt|]. simpl. intros. lia.
Qed.

(** ** Methods on a represented tree, continued *)

(** Discharge [represents] and [bst] for a closed state and tree. *)
Ltac closed_represents :=
  split_and!; [reflexivity|simpl; split_and!; reflexivity|by_eval].
Ltac closed_bst := simpl; split_and!; try exact I; repeat constructor; lia.

(** X1. [insert] keeps the binary-search-tree order: on a tree that has
    it, after [insert(k)] (whether it links a node or not) the in-order
    traversal is strictly ascending and the tree is again a search tree. *)
Theorem insert_keeps_search_order s t k :
  represents s t → bst t →
  ∃ n, ∀ fuel, (n ≤ fuel)%nat →
    ∃ res s' t' ks,
      insert fuel k s = Some (res, s') ∧
      represents s' t' ∧ bst t' ∧
      call_inOrderTraversal fuel s' = Some (ks, s') ∧
      StronglySorted Z.lt ks.
Proof.
  intros Hrep Hbst. exists (S (S (depth t))). intros fuel Hf.
  destruct (insert_represents s t k fuel Hrep) as (s' & E & Hrep' & _); [lia|].
  set (t' := tree_insert (fresh (dom (heap s))) k t) in *.
  pose proof (depth_tree_insert (fresh (dom (heap s))) k t) as Hd. fold t' in Hd.
  pose proof (bst_tree_insert (fresh (dom (heap s))) k t Hbst) as Hbst'.
  exists (insert_result k t), s', t', (inorder t'). split_and!; try done.
  - apply call_inOrderTraversal_represents; [done|lia].
  - by apply bst_sorted.
Qed.

Lemma insert_keeps_search_order_witness :
  ∃ n, ∀ fuel, (n ≤ fuel)%nat →
    ∃ res s' t' ks,
      insert fuel 60 demo_state = Some (res, s') ∧
      represents s' t' ∧ bst t' ∧
      call_inOrderTraversal fuel s' = Some (ks, s') ∧
      StronglySorted Z.lt ks.
Proof.
  apply (insert_keeps_search_order demo_state demo_tree 60);
    [closed_represents|closed_bst].
Defined.

(** X2. On every tree, an [insert(k)] that returns the tree object adds
    exactly one node, with key [k]: [countNodes()] grows by one and the
    in-order keys are the old ones plus [k]. An [insert(k)] that returns
    [undefined] changes neither, and [k] was already among the keys. *)
Theorem insert_adds_one_node_or_none s t k :
  represents s t →
  ∃ n, ∀ fuel, (n ≤ fuel)%nat →
    ∃ res s' c c' ks ks',
      insert fuel k s = Some (res, s') ∧
      call_countNodes fuel s = Some (c, s) ∧
      call_countNodes fuel s' = Some (c', s') ∧
      call_inOrderTraversal fuel s = Some (ks, s) ∧
      call_inOrderTraversal fuel s' = Some (ks', s') ∧
      ((res = JSThis ∧ c' = c + 1 ∧ ks' ≡ₚ k :: ks) ∨
       (res = JSUndefined ∧ c' = c ∧ ks' = ks ∧ k ∈ ks)).
Proof.
  intros Hrep. exists (S (S (depth t))). intros fuel Hf.
  destruct (insert_represents s t k fuel Hrep) as (s' & E & Hrep' & _); [lia|].
  set (q := fresh (dom (heap s))) in *.
  pose proof (depth_tree_insert q k t) as Hd.
  exists (insert_result k t), s', (tree_size t), (tree_size (tree_insert q k t)),
    (inorder t), (inorder (tree_insert q k t)).
  split_and!; try done.
  - apply call_countNodes_represents; [done|lia].
  - apply call_countNodes_represents; [done|lia].
  - apply call_inOrderTraversal_represents; [done|lia].
  - apply call_inOrderTraversal_represents; [done|lia].
  - unfold insert_result. rewrite tree_size_tree_insert.
    destruct (tree_search k t) eqn:Hfound.
    + right. rewrite (tree_search_insert_id q k t Hfound).
      split_and!; try done. by apply tree_search_elem.
    + left. split_and!; [done|lia|].
      by rewrite inorder_tree_insert, Hfound.
Qed.

Lemma insert_adds_one_node_or_none_witness :
  ∃ n, ∀ fuel, (n ≤ fuel)%nat →
    ∃ res s' c c' ks ks',
      insert fuel 60 demo_state = Some (res, s') ∧
      call_countNodes fuel demo_state = Some (c, demo_state) ∧
      call_countNodes fuel s' = Some (c', s') ∧
      call_inOrderTraversal fuel demo_state = Some (ks, demo_state) ∧
      call_inOrderTraversal fuel s' = Some (ks', s') ∧
      ((res = JSThis ∧ c' = c + 1 ∧ ks' ≡ₚ 60 :: ks) ∨
       (res = JSUndefined ∧ c' = c ∧ ks' = ks ∧ 60 ∈ ks)).
Proof.
  apply (insert_adds_one_node_or_none demo_state demo_tree 60).
  closed_represents.
Defined.

(** X3. On every tree, [insert(k)] changes the answer of [search] for no
    key other than [k]. *)
Theorem insert_keeps_other_searches s t k k' :
  represents s t → k' ≠ k →
  ∃ n, ∀ fuel, (n ≤ fuel)%nat →
    ∃ res s' b,
      insert fuel k s = Some (res, s') ∧
      search fuel k' s = Some (b, s) ∧
      search fuel k' s' = Some (b, s').
Proof.
  intros Hrep Hne. exists (S (S (depth t))). intros fuel Hf.
  destruct (insert_represents s t k fuel Hrep) as (s' & E & Hrep' & _); [lia|].
  set (q := fresh (dom (heap s))) in *.
  pose proof (depth_tree_insert q k t) as Hd.
  exists (insert_result k t), s', (tree_search k' t). split_and!; [done| |].
  - apply search_represents; [done|lia].
  - rewrite <-(tree_search_tree_insert_ne q k k' t Hne).
    apply search_represents; [done|lia].
Qed.

Lemma insert_keeps_other_searches_witness :
  ∃ n, ∀ fuel, (n ≤ fuel)%nat →
    ∃ res s' b,
      insert fuel 60 demo_state = Some (res, s') ∧
      search fuel 75 demo_state = Some (b, demo_state) ∧
      search fuel 75 s' = Some (b, s').
Proof.
  apply (insert_keeps_other_searches demo_state demo_tree 60 75);
    [closed_represents|lia].
Defined.

(** X4. On every tree, [insert] never lowers [getHeight()] and raises it
    by at most one. *)
Theorem insert_raises_height_by_at_most_one s t k :
  represents s t →
  ∃ n, ∀ fuel, (n ≤ fuel)%nat →
    ∃ res s' h h',
      insert fuel k s = Some (res, s') ∧
      call_getHeight fuel s = Some (h, s) ∧
      call_getHeight fuel s' = Some (h', s') ∧
      h ≤ h' ≤ h + 1.
Proof.
  intros Hrep. exists (S (S (depth t))). intros fuel Hf.
  destruct (insert_represents s t k fuel Hrep) as (s' & E & Hrep' & _); [lia|].
  set (q := fresh (dom (heap s))) in *.
  pose proof (depth_tree_insert q k t) as Hd.
  exists (insert_result k t), s', (tree_height t),
    (tree_height (tree_insert q k t)).
  split_and!; [done| | |apply tree_height_tree_insert..].
  - apply call_getHeight_represents; [done|lia].
  - apply call_getHeight_represents; [done|lia].
Qed.

Lemma insert_raises_height_by_at_most_one_witness :
  ∃ n, ∀ fuel, (n ≤ fuel)%nat →
    ∃ res s' h h',
      insert fuel 60 demo_state = Some (res, s') ∧
      call_getHeight fuel demo_state = Some (h, demo_state) ∧
      call_getHeight fuel s' = Some (h', s') ∧
      h ≤ h' ≤ h + 1.
Proof.
  apply (insert_raises_height_by_at_most_one demo_state demo_tree 60).
  closed_represents.
Defined.

(** X5. On every tree, [getHeight()] and [countNodes()] bound each other:
    [-1 <= height], [height + 1 <= count] and
    [count <= 2^(height+1) - 1]. *)
Theorem height_and_count_bounds s t :
  represents s t →
  ∃ n, ∀ fuel, (n ≤ fuel)%nat →
    ∃ h c,
      call_getHeight fuel s = Some (h, s) ∧
      call_countNodes fuel s = Some (c, s) ∧
      -1 ≤ h ∧ h + 1 ≤ c ∧ c ≤ 2 ^ (h + 1) - 1.
Proof.
  intros Hrep. exists (S (depth t)). intros fuel Hf.
  exists (tree_height t), (tree_size t).
  pose proof (tree_size_depth t) as [H1 H2].
  pose proof (tree_height_depth t) as Hh.
  split_and!; try lia.
  - apply call_getHeight_represents; [done|lia].
  - apply call_countNodes_represents; [done|lia].
  - replace (tree_height t + 1) with (Z.of_nat (depth t)) by lia. done.
Qed.

Lemma height_and_count_bounds_witness :
  ∃ n, ∀ fuel, (n ≤ fuel)%nat →
    ∃ h c,
      call_getHeight fuel demo_state = Some (h, demo_state) ∧
      call_countNodes fuel demo_state = Some (c, demo_state) ∧
      -1 ≤ h ∧ h + 1 ≤ c ∧ c ≤ 2 ^ (h + 1) - 1.
Proof.
  apply (height_and_count_bounds demo_state demo_tree). closed_represents.
Defined.

(** X6. On every tree, [invert()] keeps [getHeight()] and exchanges the
    answers of [findMin()] and [findMax()]. *)
Theorem invert_keeps_height_swaps_ends s t :
  represents s t →
  ∃ n, ∀ fuel, (n ≤ fuel)%nat →
    ∃ s' h mn mx,
      call_invert fuel s = Some (root s, s') ∧
      call_getHeight fuel s = Some (h, s) ∧
      call_getHeight fuel s' = Some (h, s') ∧
      call_findMin fuel s = Some (mn, s) ∧
      call_findMax fuel s = Some (mx, s) ∧
      call_findMin fuel s' = Some (mx, s') ∧
      call_findMax fuel s' = Some (mn, s').
Proof.
  intros Hrep. exists (S (depth t)). intros fuel Hf.
  destruct (call_invert_represents s t fuel Hrep) as (s' & E & Hrep' & _); [lia|].
  pose proof (depth_mirror t) as Hd.
  exists s', (tree_height t), (leftmost t), (rightmost t).
  split_and!; [done|..].
  - apply call_getHeight_represents; [done|lia].
  - rewrite <-tree_height_mirror. apply call_getHeight_represents; [done|lia].
  - apply call_findMin_represents; [done|lia].
  - apply call_findMax_represents; [done|lia].
  - rewrite <-leftmost_mirror. apply call_findMin_represents; [done|lia].
  - rewrite <-rightmost_mirror. apply call_findMax_represents; [done|lia].
Qed.

Lemma invert_keeps_height_swaps_ends_witness :
  ∃ n, ∀ fuel, (n ≤ fuel)%nat →
    ∃ s' h mn mx,
      call_invert fuel demo_state = Some (root demo_state, s') ∧
      call_getHeight fuel demo_state = Some (h, demo_state) ∧
      call_getHeight fuel s' = Some (h, s') ∧
      call_findMin fuel demo_state = Some (mn, demo_state) ∧
      call_findMax fuel demo_state = Some (mx, demo_state) ∧
      call_findMin fuel s' = Some (mx, s') ∧
      call_findMax fuel s' = Some (mn, s').
Proof.
  apply (invert_keeps_height_swaps_ends demo_state demo_tree).
  closed_represents.
Defined.

(** X7. On every tree, the pre-order traversal after [invert()] is the
    reverse of the post-order traversal before it, and the post-order
    traversal after it is the reverse of the pre-order traversal before. *)
Theorem invert_exchanges_preorder_postorder s t :
  represents s t →
  ∃ n, ∀ fuel, (n ≤ fuel)%nat →
    ∃ s' pre post,
      call_preOrderTraversal fuel s = Some (pre, s) ∧
      call_postOrderTraversal fuel s = Some (post, s) ∧
      call_invert fuel s = Some (root s, s') ∧
      call_preOrderTraversal fuel s' = Some (reverse post, s') ∧
      call_postOrderTraversal fuel s' = Some (reverse pre, s').
Proof.
  intros Hrep. exists (S (depth t)). intros fuel Hf.
  destruct (call_invert_represents s t fuel Hrep) as (s' & E & Hrep' & _); [lia|].
  pose proof (depth_mirror t) as Hd.
  exists s', (preorder t), (postorder t). split_and!; [| |done| |].
  - apply call_preOrderTraversal_represents; [done|lia].
  - apply call_postOrderTraversal_represents; [done|lia].
  - rewrite <-preorder_mirror.
    apply call_preOrderTraversal_represents; [done|lia].
  - rewrite <-postorder_mirror.
    apply call_postOrderTraversal_represents; [done|lia].
Qed.

Lemma invert_exchanges_preorder_postorder_witness :
  ∃ n, ∀ fuel, (n ≤ fuel)%nat →
    ∃ s' pre post,
      call_preOrderTraversal fuel demo_state = Some (pre, demo_state) ∧
      call_postOrderTraversal fuel demo_state = Some (post, demo_state) ∧
      call_invert fuel demo_state = Some (root demo_state, s') ∧
      call_preOrderTraversal fuel s' = Some (reverse post, s') ∧
      call_postOrderTraversal fuel s' = Some (reverse pre, s').
Proof.
  apply (invert_exchanges_preorder_postorder demo_state demo_tree).
  closed_represents.
Defined.

(** X8. After [invert()] on a tree that had the binary-search-tree order,
    [search(k)] returns [true] for the key of the root node and [false]
    for every other key, stored or not. *)
Theorem search_after_invert_finds_root_only s t :
  represents s t → bst t →
  ∃ n, ∀ fuel, (n ≤ fuel)%nat →
    ∃ s',
      call_invert fuel s = Some (root s, s') ∧
      ∀ k, ∃ b,
        search fuel k s' = Some (b, s') ∧
        (b = true ↔
         ∃ p nd, root s = Some p ∧ heap s !! p = Some nd ∧ k = value nd).
Proof.
  intros Hrep Hbst. exists (S (depth t)). intros fuel Hf.
  destruct (call_invert_represents s t fuel Hrep) as (s' & E & Hrep' & _); [lia|].
  exists s'. split; [done|]. intros k.
  exists (tree_search k (mirror t)). split.
  { apply search_represents; [done|rewrite depth_mirror; lia]. }
  destruct Hrep as (Hptr & Hs & _). rewrite <-Hptr.
  destruct t as [|p l v r].
  - simpl. split; [done|]. by intros (? & ? & ? & _).
  - rewrite tree_search_mirror_bst by done. destruct Hs as (Hp & _).
    rewrite bool_decide_eq_true. split.
    + intros ->. exists p. eexists. by split_and!.
    + intros (p' & nd & [= <-] & Hnd & ->). rewrite Hp in Hnd.
      by injection Hnd as <-.
Qed.

Lemma search_after_invert_finds_root_only_witness :
  ∃ n, ∀ fuel, (n ≤ fuel)%nat →
    ∃ s',
      call_invert fuel demo_state = Some (root demo_state, s') ∧
      ∀ k, ∃ b,
        search fuel k s' = Some (b, s') ∧
        (b = true ↔
         ∃ p nd, root demo_state = Some p ∧ heap demo_state !! p = Some nd ∧
                 k = value nd).
Proof.
  apply (search_after_invert_finds_root_only demo_state demo_tree);
    [closed_represents|closed_bst].
Defined.

(** X9. On every tree, [findMin()] is the first and [findMax()] the last
    key of the in-order traversal ([null] when there is none); on a tree
    with the binary-search-tree order they are the smallest and the
    largest stored key. *)
Theorem findMin_findMax_extremes s t :
  represents s t →
  ∃ n, ∀ fuel, (n ≤ fuel)%nat →
    ∃ ks,
      call_inOrderTraversal fuel s = Some (ks, s) ∧
      call_findMin fuel s = Some (head ks, s) ∧
      call_findMax fuel s = Some (last ks, s) ∧
      (bst t →
       (∀ m x, head ks = Some m → x ∈ ks → m ≤ x) ∧
       (∀ m x, last ks = Some m → x ∈ ks → x ≤ m)).
Proof.
  intros Hrep. exists (S (depth t)). intros fuel Hf.
  exists (inorder t). split_and!.
  - apply call_inOrderTraversal_represents; [done|lia].
  - rewrite <-leftmost_head. apply call_findMin_represents; [done|lia].
  - rewrite <-rightmost_last. apply call_findMax_represents; [done|lia].
  - intros Hbst%bst_sorted. split; intros m x.
    + by apply StronglySorted_head_le.
    + by apply StronglySorted_last_le.
Qed.

Lemma findMin_findMax_extremes_witness :
  ∃ n, ∀ fuel, (n ≤ fuel)%nat →
    ∃ ks,
      call_inOrderTraversal fuel demo_state = Some (ks, demo_state) ∧
      call_findMin fuel demo_state = Some (head ks, demo_state) ∧
      call_findMax fuel demo_state = Some (last ks, demo_state) ∧
      (bst demo_tree →
       (∀ m x, head ks = Some m → x ∈ ks → m ≤ x) ∧
       (∀ m x, last ks = Some m → x ∈ ks → x ≤ m)).
Proof.
  apply (findMin_findMax_extremes demo_state demo_tree). closed_represents.
Defined.

(** X10. In every state that [insert] and [invert()] calls can produce
    from a new tree, the nodes form a tree: the references from the root
    spell out a finite tree whose nodes are all distinct, so the heap
    holds no cycle and no shared node. Hence each query returns and
    leaves the state as it was. *)
Theorem reachable_queries_return s :
  reachable s →
  ∃ t,
    ptr t = root s ∧ shape (heap s) t ∧ NoDup (locs t) ∧
    ∃ n, ∀ fuel, (n ≤ fuel)%nat →
      (∀ k, ∃ b, search fuel k s = Some (b, s)) ∧
      (∃ ks, call_inOrderTraversal fuel s = Some (ks, s)) ∧
      (∃ ks, call_preOrderTraversal fuel s = Some (ks, s)) ∧
      (∃ ks, call_postOrderTraversal fuel s = Some (ks, s)) ∧
      (∃ m, call_findMin fuel s = Some (m, s)) ∧
      (∃ m, call_findMax fuel s = Some (m, s)) ∧
      (∃ h, call_getHeight fuel s = Some (h, s)) ∧
      (∃ c, call_countNodes fuel s = Some (c, s)) ∧
      (∀ toString, ∃ text, visualize toString fuel s = Some (text, s)).
Proof.
  intros [t Hrep]%reachable_represents. exists t.
  pose proof Hrep as (Hptr & Hshape & Hnd). split_and!; [done..|].
  exists (S (depth t)). intros fuel Hf. split_and!.
  - intros k. eexists. apply (search_represents s t); [done|lia].
  - eexists. apply (call_inOrderTraversal_represents s t); [done|lia].
  - eexists. apply (call_preOrderTraversal_represents s t); [done|lia].
  - eexists. apply (call_postOrderTraversal_represents s t); [done|lia].
  - eexists. apply (call_findMin_represents s t); [done|lia].
  - eexists. apply (call_findMax_represents s t); [done|lia].
  - eexists. apply (call_getHeight_represents s t); [done|lia].
  - eexists. apply (call_countNodes_represents s t); [done|lia].
  - intros toString. eexists.
    apply (visualize_represents toString s t); [done|lia].
Qed.

Lemma reachable_queries_return_witness :
  ∃ t,
    ptr t = root demo_state ∧ shape (heap demo_state) t ∧ NoDup (locs t) ∧
    ∃ n, ∀ fuel, (n ≤ fuel)%nat →
      (∀ k, ∃ b, search fuel k demo_state = Some (b, demo_state)) ∧
      (∃ ks, call_inOrderTraversal fuel demo_state = Some (ks, demo_state)) ∧
      (∃ ks, call_preOrderTraversal fuel demo_state = Some (ks, demo_state)) ∧
      (∃ ks, call_postOrderTraversal fuel demo_state = Some (ks, demo_state)) ∧
      (∃ m, call_findMin fuel demo_state = Some (m, demo_state)) ∧
      (∃ m, call_findMax fuel demo_state = Some (m, demo_state)) ∧
      (∃ h, call_getHeight fuel demo_state = Some (h, demo_state)) ∧
      (∃ c, call_countNodes fuel demo_state = Some (c, demo_state)) ∧
      (∀ toString,
         ∃ text, visualize toString fuel demo_state = Some (text, demo_state)).
Proof.
  apply (reachable_queries_return demo_state).
  apply (reachable_insert _ 2 75 JSThis _
           (reachable_insert _ 2 10 JSThis _
              (reachable_insert _ 2 50 JSThis _ reachable_new eq_refl)
              eq_refl));
    vm_compute; reflexivity.
Defined.

(** ** Sequences of inserts *)

(** X11. After inserting any list of keys into a new tree, [search(k)]
    returns [true] exactly for the keys of the list. *)
Theorem search_after_inserts (keys : list Z) :
  ∃ n, ∀ fuel, (n ≤ fuel)%nat →
    ∃ rs s,
      insert_all fuel keys BinaryTree = Some (rs, s) ∧
      ∀ k, ∃ b, search fuel k s = Some (b, s) ∧ (b = true ↔ k ∈ keys).
Proof.
  exists (S (length keys)). intros fuel Hf.
  destruct (insert_all_represents keys BinaryTree Leaf fuel)
    as (rs & s & t & E & Hrep & Hbst & Hd & Hin);
    [apply represents_BinaryTree|done|simpl; lia|].
  simpl in Hd. exists rs, s. split; [done|]. intros k.
  exists (tree_search k t). split.
  - apply search_represents; [done|lia].
  - split.
    + intros Hk%tree_search_elem. apply Hin in Hk as [Hk|Hk]; [|done].
      by apply elem_of_nil in Hk.
    + intros Hk. apply bst_tree_search; [done|]. apply Hin. by right.
Qed.

(** X12. After inserting any list of keys, repeated keys included, into
    a new tree, the in-order traversal is strictly ascending, holds
    exactly the keys of the list, and [countNodes()] is the number of
    distinct keys. *)
Theorem inserts_with_repeats (keys : list Z) :
  ∃ n, ∀ fuel, (n ≤ fuel)%nat →
    ∃ rs s ks,
      insert_all fuel keys BinaryTree = Some (rs, s) ∧
      call_inOrderTraversal fuel s = Some (ks, s) ∧
      StronglySorted Z.lt ks ∧
      (∀ k, k ∈ ks ↔ k ∈ keys) ∧
      call_countNodes fuel s
      = Some (Z.of_nat (length (remove_dups keys)), s).
Proof.
  exists (S (length keys)). intros fuel Hf.
  destruct (insert_all_represents keys BinaryTree Leaf fuel)
    as (rs & s & t & E & Hrep & Hbst & Hd & Hin);
    [apply represents_BinaryTree|done|simpl; lia|].
  simpl in Hd. exists rs, s, (inorder t).
  assert (∀ k, k ∈ inorder t ↔ k ∈ keys) as Hin'.
  { intros k. rewrite Hin. simpl. rewrite elem_of_nil. tauto. }
  split_and!; try done.
  - apply call_inOrderTraversal_represents; [done|lia].
  - by apply bst_sorted.
  - assert (inorder t ≡ₚ remove_dups keys) as Hperm.
    { apply NoDup_Permutation.
      - by apply StronglySorted_lt_NoDup, bst_sorted.
      - apply NoDup_remove_dups.
      - intros k. by rewrite Hin', elem_of_remove_dups. }
    rewrite <-Hperm, length_inorder.
    apply call_countNodes_represents; [done|lia].
Qed.

Lemma insert_all_results keys : ∀ s t fuel,
  represents s t → bst t → (depth t + length keys ≤ fuel)%nat →
  ∃ rs s', insert_all fuel keys s = Some (rs, s') ∧
    ∀ i k, keys !! i = Some k →
      rs !! i = Some (if bool_decide (k ∈ inorder t ++ take i keys)
                      then JSUndefined else JSThis).
Proof.
  induction keys as [|k keys IH]; intros s t fuel Hrep Hbst Hf; simpl in *.
  { exists [], s. split; [done|]. intros i k. by rewrite lookup_nil. }
  destruct (insert_represents s t k fuel Hrep) as (s1 & E1 & Hrep1 & _); [lia|].
  set (t1 := tree_insert (fresh (dom (heap s))) k t) in *.
  pose proof (depth_tree_insert (fresh (dom (heap s))) k t) as Hd. fold t1 in Hd.
  destruct (IH s1 t1 fuel Hrep1) as (rs & s' & E & Hrs);
    [by apply bst_tree_insert|lia|].
  run_with E1. run_with E.
  exists (insert_result k t :: rs), s'. split; [done|].
  intros [|i] k' Hk'; simpl in *.
  - injection Hk' as ->. rewrite app_nil_r. unfold insert_result. do 2 f_equal.
    destruct (tree_search k' t) eqn:Hfound.
    + by rewrite bool_decide_eq_true_2 by by apply tree_search_elem.
    + rewrite bool_decide_eq_false_2; [done|].
      intros Hin. by rewrite (bst_tree_search k' t Hbst Hin) in Hfound.
  - rewrite (Hrs i k' Hk').
    assert (k' ∈ inorder t1 ++ take i keys
            ↔ k' ∈ inorder t ++ k :: take i keys) as Hiff.
    { unfold t1.
      rewrite !elem_of_app, elem_of_inorder_tree_insert, elem_of_cons. tauto. }
    by rewrite (bool_decide_ext _ _ Hiff).
Qed.

Lemma insert_all_length keys : ∀ fuel s rs s',
  insert_all fuel keys s = Some (rs, s') → length rs = length keys.
Proof.
  induction keys as [|k keys IH]; intros fuel s rs s' E; simpl in *.
  - by injection E as <- _.
  - apply bind_inv in E as (r1 & s1 & E1 & E).
    apply bind_inv in E as (rs1 & s2 & E2 & E).
    injection E as <- _. simpl. f_equal. eauto.
Qed.

(** X13. [values.map((val) => tree.insert(val))] on a new tree yields, at
    each position, the tree object when the key occurs there for the first
    time and [undefined] when it occurred earlier in the list. *)
Theorem insert_all_flags_repeats (keys : list Z) :
  ∃ n, ∀ fuel, (n ≤ fuel)%nat →
    ∃ rs s,
      insert_all fuel keys BinaryTree = Some (rs, s) ∧
      length rs = length keys ∧
      ∀ i k, keys !! i = Some k →
        rs !! i = Some (if bool_decide (k ∈ take i keys)
                        then JSUndefined else JSThis).
Proof.
  exists (length keys). intros fuel Hf.
  destruct (insert_all_results keys BinaryTree Leaf fuel)
    as (rs & s & E & Hrs); [apply represents_BinaryTree|done|simpl; lia|].
  exists rs, s. split_and!; [done| |done].
  by eapply insert_all_length.
Qed.

Lemma right_spine_tree_insert q k t :
  right_spine t → Forall (λ x, x < k) (inorder t) →
  right_spine (tree_insert q k t) ∧
  inorder (tree_insert q k t) = inorder t ++ [k] ∧
  depth (tree_insert q k t) = S (depth t).
Proof.
  induction t as [|p l _ v r IHr]; simpl; [done|].
  intros [-> Hr] Hall. simpl in Hall. apply Forall_cons in Hall as [Hv Hall].
  repeat case_decide; try lia.
  destruct (IHr Hr Hall) as (Hs & Hin & Hd). simpl.
  split_and!; [done|done|by rewrite Hin|lia].
Qed.

Lemma insert_all_ascending keys : ∀ s t fuel,
  represents s t → right_spine t →
  StronglySorted Z.lt (inorder t ++ keys) →
  (depth t + length keys ≤ fuel)%nat →
  ∃ rs s' t', insert_all fuel keys s = Some (rs, s') ∧
    represents s' t' ∧ right_spine t' ∧
    inorder t' = inorder t ++ keys ∧
    depth t' = (depth t + length keys)%nat.
Proof.
  induction keys as [|k keys IH]; intros s t fuel Hrep Hsp Hsort Hf; simpl in *.
  { exists [], s, t. split_and!; [done|done|done|by rewrite app_nil_r|lia]. }
  destruct (insert_represents s t k fuel Hrep) as (s1 & E1 & Hrep1 & _); [lia|].
  set (t1 := tree_insert (fresh (dom (heap s))) k t) in *.
  destruct (right_spine_tree_insert (fresh (dom (heap s))) k t Hsp)
    as (Hsp1 & Hin1 & Hd1).
  { apply StronglySorted_app in Hsort as (Hlt & _ & _).
    apply Forall_forall. intros x Hx. apply Hlt; [done|]. apply elem_of_cons.
    by left. }
  fold t1 in Hsp1, Hin1, Hd1.
  destruct (IH s1 t1 fuel Hrep1 Hsp1) as (rs & s' & t' & E & Hrep' & Hsp' & Hin' & Hd').
  { by rewrite Hin1, <-app_assoc. }
  { lia. }
  run_with E1. run_with E. eexists _, s', t'. split_and!; try done.
  - by rewrite Hin', Hin1, <-app_assoc.
  - lia.
Qed.

(** X14. No rebalancing: inserting keys in strictly ascending order into
    a new tree yields a degenerate tree, whose [getHeight()] is the number
    of keys minus one. *)
Theorem ascending_inserts_degenerate (keys : list Z) :
  StronglySorted Z.lt keys →
  ∃ n, ∀ fuel, (n ≤ fuel)%nat →
    ∃ rs s,
      insert_all fuel keys BinaryTree = Some (rs, s) ∧
      call_getHeight fuel s = Some (Z.of_nat (length keys) - 1, s) ∧
      call_inOrderTraversal fuel s = Some (keys, s) ∧
      call_preOrderTraversal fuel s = Some (keys, s).
Proof.
  intros Hsort. exists (S (length keys)). intros fuel Hf.
  destruct (insert_all_ascending keys BinaryTree Leaf fuel)
    as (rs & s & t & E & Hrep & Hsp & Hin & Hd);
    [apply represents_BinaryTree|done|done|simpl; lia|].
  simpl in Hin, Hd. exists rs, s. split_and!; [done|..].
  - rewrite <-Hd, <-tree_height_depth.
    apply call_getHeight_represents; [done|lia].
  - rewrite <-Hin. apply call_inOrderTraversal_represents; [done|lia].
  - rewrite <-Hin.
    replace (inorder t) with (preorder t).
    { apply call_preOrderTraversal_represents; [done|lia]. }
    clear -Hsp. induction t as [|p l _ v r IHr]; [done|].
    destruct Hsp as [-> Hsp]. simpl. by rewrite IHr.
Qed.

Lemma ascending_inserts_degenerate_witness :
  StronglySorted Z.lt [1; 2; 3; 4] ∧
  ∃ n, ∀ fuel, (n ≤ fuel)%nat →
    ∃ rs s,
      insert_all fuel [1; 2; 3; 4] BinaryTree = Some (rs, s) ∧
      call_getHeight fuel s = Some (Z.of_nat (length [1; 2; 3; 4]) - 1, s) ∧
      call_inOrderTraversal fuel s = Some ([1; 2; 3; 4], s) ∧
      call_preOrderTraversal fuel s = Some ([1; 2; 3; 4], s).
Proof.
  assert (StronglySorted Z.lt [1; 2; 3; 4]) as H
    by (repeat constructor; lia).
  split; [exact H|]. apply (ascending_inserts_degenerate [1; 2; 3; 4] H).
Defined.

(** ** Calls with explicit arguments, and what [insert] leaves alone *)

(** X15. Called with a node and an array, each traversal returns the
    array it was given followed by the keys of the subtree at that node,
    in the order in which a call with an empty array lists them. *)
Theorem traversals_append_to_result h r o t :
  tree_at h o t →
  ∃ n, ∀ fuel, (n ≤ fuel)%nat →
    let s := mkState h r in
    ∃ ino pre post, ∀ acc,
      inOrderTraversal fuel o acc s = Some (acc ++ ino, s) ∧
      preOrderTraversal fuel o acc s = Some (acc ++ pre, s) ∧
      postOrderTraversal fuel o acc s = Some (acc ++ post, s).
Proof.
  intros (<- & Hs & _). exists (S (depth t)). intros fuel Hf s.
  exists (inorder t), (preorder t), (postorder t). intros acc. split_and!.
  - apply inOrderTraversal_shape; [done|lia].
  - apply preOrderTraversal_shape; [done|lia].
  - apply postOrderTraversal_shape; [done|lia].
Qed.

Lemma traversals_append_to_result_witness :
  ∃ n, ∀ fuel, (n ≤ fuel)%nat →
    let s := mkState (heap demo_state) (root demo_state) in
    ∃ ino pre post, ∀ acc,
      inOrderTraversal fuel (Some 1%positive) acc s = Some (acc ++ ino, s) ∧
      preOrderTraversal fuel (Some 1%positive) acc s = Some (acc ++ pre, s) ∧
      postOrderTraversal fuel (Some 1%positive) acc s = Some (acc ++ post, s).
Proof.
  apply (traversals_append_to_result (heap demo_state) (root demo_state)
           (Some 1%positive) demo_tree).
  closed_represents.
Defined.

(** X16. [invert(node)] on the root of a subtree returns [node], mirrors
    that subtree (its in-order keys come out reversed) and leaves every
    node outside the subtree, and the tree's [root], exactly as it was. *)
Theorem invert_node_changes_subtree_only h r o t :
  tree_at h o t →
  ∃ n, ∀ fuel, (n ≤ fuel)%nat →
    ∃ h' ks,
      invert fuel o (mkState h r) = Some (o, mkState h' r) ∧
      tree_at h' o (mirror t) ∧
      (∀ q, q ∉ locs t → h' !! q = h !! q) ∧
      inOrderTraversal fuel o [] (mkState h r) = Some (ks, mkState h r) ∧
      inOrderTraversal fuel o [] (mkState h' r)
      = Some (reverse ks, mkState h' r).
Proof.
  intros (<- & Hs & Hnd). exists (S (depth t)). intros fuel Hf.
  destruct (invert_shape t h r fuel Hs Hnd) as (h' & E & Hs' & Hfr); [lia|].
  exists h', (inorder t). split_and!; try done.
  - split_and!; [apply ptr_mirror|done|by rewrite locs_mirror].
  - apply (inOrderTraversal_shape h r t fuel []); [done|lia].
  - rewrite <-inorder_mirror, <-(ptr_mirror t).
    apply (inOrderTraversal_shape h' r (mirror t) fuel []);
      [done|rewrite depth_mirror; lia].
Qed.

Lemma invert_node_changes_subtree_only_witness :
  ∃ n, ∀ fuel, (n ≤ fuel)%nat →
    ∃ h' ks,
      invert fuel (Some 1%positive) (mkState (heap demo_state) None)
      = Some (Some 1%positive, mkState h' None) ∧
      tree_at h' (Some 1%positive) (mirror demo_tree) ∧
      (∀ q, q ∉ locs demo_tree → h' !! q = heap demo_state !! q) ∧
      inOrderTraversal fuel (Some 1%positive) [] (mkState (heap demo_state) None)
      = Some (ks, mkState (heap demo_state) None) ∧
      inOrderTraversal fuel (Some 1%positive) [] (mkState h' None)
      = Some (reverse ks, mkState h' None).
Proof.
  apply (invert_node_changes_subtree_only (heap demo_state) None
           (Some 1%positive) demo_tree).
  closed_represents.
Defined.

Lemma insert_loop_links_only fuel : ∀ k q p s res s',
  insert_loop fuel k q p s = Some (res, s') → links_only s s'.
Proof.
  induction fuel as [|fuel IH]; intros k q p s res s' E; [done|].
  simpl in E. apply bind_inv in E as (cur & s1 & E1 & E).
  apply load_inv in E1 as [-> _].
  repeat case_decide.
  - injection E as _ <-. apply links_only_refl.
  - destruct (left cur); [by eapply IH|].
    apply bind_inv in E as (? & s2 & E2 & E). injection E as _ <-.
    by eapply store_left_inv.
  - destruct (right cur); [by eapply IH|].
    apply bind_inv in E as (? & s2 & E2 & E). injection E as _ <-.
    by eapply store_right_inv.
Qed.

(** X17. On any heap, an [insert(k)] that returns has allocated one node
    with key [k] and has otherwise kept every reference and the key stored
    at it; the root of a non-empty tree stays the root, and an empty
    tree gets the new node as its root. *)
Theorem insert_keeps_existing_nodes fuel k s res s' :
  insert fuel k s = Some (res, s') →
  let q := fresh (dom (heap s)) in
  heap s !! q = None ∧
  value <$> heap s' !! q = Some k ∧
  (∀ p, p ≠ q → value <$> heap s' !! p = value <$> heap s !! p) ∧
  root s' = match root s with Some p => Some p | None => Some q end.
Proof.
  intros E q. unfold insert in E.
  apply bind_inv in E as (q' & s1 & E1 & E).
  injection E1 as <- <-. fold q in E.
  apply bind_inv in E as (r & s2 & E2 & E).
  injection E2 as <- <-. simpl in E.
  assert (heap s !! q = None) as Hq.
  { apply not_elem_of_dom. apply is_fresh. }
  split; [done|].
  destruct (root s) as [p|] eqn:Hroot.
  - apply insert_loop_links_only in E as [Hr Hv]. simpl in *.
    split_and!.
    + by rewrite Hv, lookup_insert_eq.
    + intros p' Hne. by rewrite Hv, lookup_insert_ne.
    + congruence.
  - apply bind_inv in E as (? & s3 & E3 & E). injection E as _ <-.
    injection E3 as _ <-. simpl. split_and!.
    + by rewrite lookup_insert_eq.
    + intros p' Hne. by rewrite lookup_insert_ne.
    + done.
Qed.

Lemma insert_keeps_existing_nodes_witness :
  ∃ s',
    insert 2 60 demo_state = Some (JSThis, s') ∧
    let q := fresh (dom (heap demo_state)) in
    heap demo_state !! q = None ∧
    value <$> heap s' !! q = Some 60 ∧
    (∀ p, p ≠ q → value <$> heap s' !! p = value <$> heap demo_state !! p) ∧
    root s' = match root demo_state with Some p => Some p | None => Some q end.
Proof.
  eexists. split; [vm_compute; reflexivity|].
  apply (insert_keeps_existing_nodes 2 60 demo_state JSThis).
  vm_compute. reflexivity.
Defined.

(** ** The order of the lines of [visualize] *)

Lemma subtree_lines_keys toString t : ∀ prefix isLast,
  no_LF prefix = true →
  ∃ marks : list string,
    length marks = length (postorder t) ∧
    Forall (λ m, no_LF m = true) marks ∧
    subtree_lines toString prefix isLast t
    = zip_with (λ m k, m +:+ toString k) marks (reverse (postorder t)).
Proof.
  induction t as [|p l IHl v r IHr]; intros prefix isLast Hp.
  { by exists []. }
  assert (no_LF (prefix +:+ continuation isLast) = true) as Hp'.
  { by rewrite no_LF_app, Hp, no_LF_continuation. }
  destruct (IHr (prefix +:+ continuation isLast) (negb (is_node l)) Hp')
    as (mr & Hlr & Hmr & Er).
  destruct (IHl (prefix +:+ continuation isLast) true Hp')
    as (ml & Hll & Hml & El).
  exists ((prefix +:+ connector isLast) :: mr ++ ml). simpl. split_and!.
  - rewrite !length_app. simpl. lia.
  - constructor; [by rewrite no_LF_app, Hp, no_LF_connector|].
    by apply Forall_app.
  - rewrite Er, El, !reverse_app, reverse_singleton. simpl. f_equal.
    rewrite zip_with_app; [done|]. by rewrite length_reverse.
Qed.

(** X18. [visualize] logs one line per node between an empty first and
    an empty last line: cut at its line feeds and read from top to
    bottom, the text carries the keys in the reverse of the post-order
    traversal (node, then right subtree, then left subtree), each key
    printed by [toString] at the end of its line, after a mark without
    line feed. [toString] is the engine's; its output for the keys of the
    tree holds no line feed. *)
Theorem visualize_lists_keys_in_reverse_postorder toString s t :
  represents s t →
  Forall (λ k, no_LF (toString k) = true) (inorder t) →
  ∃ n, ∀ fuel, (n ≤ fuel)%nat →
    ∃ post c text,
      call_postOrderTraversal fuel s = Some (post, s) ∧
      call_countNodes fuel s = Some (c, s) ∧
      visualize toString fuel s = Some (text, s) ∧
      match root s with
      | None => text = "Tree is empty" ∧ post = []
      | Some _ =>
          ∃ marks : list string,
            Z.of_nat (length marks) = c ∧
            Forall (λ m, no_LF m = true) marks ∧
            lines_of text
            = "" :: zip_with (λ m k, m +:+ toString k) marks (reverse post)
                 ++ [""]
      end.
Proof.
  intros Hrep Hk. exists (S (depth t)). intros fuel Hf.
  exists (postorder t), (tree_size t), (tree_render toString t). split_and!.
  - apply call_postOrderTraversal_represents; [done|lia].
  - apply call_countNodes_represents; [done|lia].
  - apply visualize_represents; [done|lia].
  - destruct Hrep as (Hptr & _). rewrite <-Hptr.
    destruct t as [|p l v r]; [done|]. simpl ptr. cbv iota.
    destruct (subtree_lines_keys toString r "" (negb (is_node l)) eq_refl)
      as (mr & Hlr & Hmr & Er).
    destruct (subtree_lines_keys toString l "" true eq_refl)
      as (ml & Hll & Hml & El).
    exists ("" :: mr ++ ml). split_and!.
    + rewrite <-length_inorder, <-postorder_inorder. simpl.
      rewrite !length_app. simpl. lia.
    + constructor; [done|]. by apply Forall_app.
    + rewrite lines_of_tree_render by done. rewrite Er, El. simpl postorder.
      rewrite !reverse_app, reverse_singleton. simpl. do 2 f_equal.
      rewrite zip_with_app by (by rewrite length_reverse).
      by rewrite <-!app_assoc.
Qed.

Lemma visualize_lists_keys_in_reverse_postorder_witness :
  ∃ n, ∀ fuel, (n ≤ fuel)%nat →
    ∃ post c text,
      call_postOrderTraversal fuel demo_state = Some (post, demo_state) ∧
      call_countNodes fuel demo_state = Some (c, demo_state) ∧
      visualize pretty fuel demo_state = Some (text, demo_state) ∧
      ∃ marks : list string,
        Z.of_nat (length marks) = c ∧
        Forall (λ m, no_LF m = true) marks ∧
        lines_of text
        = "" :: zip_with (λ m k, m +:+ pretty k) marks (reverse post) ++ [""].
Proof.
  apply (visualize_lists_keys_in_reverse_postorder pretty demo_state demo_tree).
  - closed_represents.
  - by_eval.
Defined.

(** * [Array.prototype.myFilter] *)

Lemma myFilter_loop_indices {A} (f : A → nat → list (option A) → bool) this :
  ∀ n i result idx,
    (i + n = length this)%nat →
    StronglySorted lt idx →
    (∀ j, j ∈ idx ↔
          (j < i)%nat ∧ ∃ v, this !! j = Some (Some v) ∧ f v j this = true) →
    Forall2 (λ j v, this !! j = Some (Some v)) idx result →
    ∃ idx',
      StronglySorted lt idx' ∧
      (∀ j, j ∈ idx' ↔ ∃ v, this !! j = Some (Some v) ∧ f v j this = true) ∧
      Forall2 (λ j v, this !! j = Some (Some v)) idx'
        (myFilter_loop f this n i result).
Proof.
  induction n as [|n IH]; intros i result idx Hlen Hsort Hidx Hres; simpl.
  - exists idx. split_and!; [done| |done].
    intros j. rewrite Hidx. split; [by intros [_ ?]|].
    intros (v & Hj & Hv). split; [|by eauto].
    apply lookup_lt_Some in Hj. lia.
  - assert (∀ idx1 result1,
      StronglySorted lt idx1 →
      (∀ j, j ∈ idx1 ↔
            (j < S i)%nat ∧
            ∃ v, this !! j = Some (Some v) ∧ f v j this = true) →
      Forall2 (λ j v, this !! j = Some (Some v)) idx1 result1 →
      ∃ idx',
        StronglySorted lt idx' ∧
        (∀ j, j ∈ idx' ↔ ∃ v, this !! j = Some (Some v) ∧ f v j this = true) ∧
        Forall2 (λ j v, this !! j = Some (Some v)) idx'
          (myFilter_loop f this n (S i) result1)) as Hnext.
    { intros idx1 result1 ???. apply (IH (S i) result1 idx1); [lia|done..]. }
    assert ((¬ ∃ v, this !! i = Some (Some v) ∧ f v i this = true) →
            ∀ j, j ∈ idx ↔
              (j < S i)%nat ∧
              ∃ v, this !! j = Some (Some v) ∧ f v j this = true) as Hskip.
    { intros Hno j. rewrite Hidx. split.
      - intros [? ?]. split; [lia|done].
      - intros [Hj Hk]. split; [|done].
        destruct (decide (j = i)) as [->|]; [done|lia]. }
    destruct (this !! i) as [[w|]|] eqn:Hi.
    + destruct (f w i this) eqn:Hf.
      * apply (Hnext (idx ++ [i])).
        -- apply StronglySorted_app_2; [|done|repeat constructor].
           intros j1 j2 [Hj1 _]%Hidx ->%list_elem_of_singleton. done.
        -- intros j. rewrite elem_of_app, list_elem_of_singleton, Hidx. split.
           ++ intros [[? ?]| ->]; [split; [lia|done]|].
              split; [lia|]. by exists w.
           ++ intros [Hj Hk]. destruct (decide (j = i)) as [->|]; [by right|].
              left. split; [lia|done].
        -- apply Forall2_app; [done|]. by repeat constructor.
      * apply (Hnext idx); [done| |done]. apply Hskip.
        intros (v & Hv & Hfv). congruence.
    + apply (Hnext idx); [done| |done]. apply Hskip.
      intros (v & Hv & Hfv). congruence.
    + apply (Hnext idx); [done| |done]. apply Hskip.
      intros (v & Hv & Hfv). congruence.
Qed.

(** X19. [myFilter] returns exactly the elements at the indices where
    the array holds a value other than [undefined] and the callback,
    called with that element, its index and the array, holds: one result
    element per such index, in ascending order of the indices. *)
Theorem myFilter_sound_complete {A}
    (callbackFn : A → nat → list (option A) → bool) (this : list (option A)) :
  ∃ idx : list nat,
    StronglySorted lt idx ∧
    (∀ i, i ∈ idx ↔
          ∃ v, this !! i = Some (Some v) ∧ callbackFn v i this = true) ∧
    Forall2 (λ i v, this !! i = Some (Some v)) idx (myFilter callbackFn this).
Proof.
  apply (myFilter_loop_indices callbackFn this (length this) 0 [] []).
  - done.
  - constructor.
  - intros j. rewrite elem_of_nil. split; [done|]. intros [? _]. lia.
  - constructor.
Qed.

Lemma myFilter_loop_filter {A} (g : A → bool) (this : list (option A)) :
  ∀ n i result,
    (i + n = length this)%nat →
    myFilter_loop (λ v _ _, g v) this n i result
    = result ++ filter (λ v, g v = true) (omap id (drop i this)).
Proof.
  induction n as [|n IH]; intros i result Hlen; simpl.
  - rewrite drop_ge by lia. by rewrite app_nil_r.
  - destruct (lookup_lt_is_Some_2 this i) as [x Hx]; [lia|].
    rewrite IH by lia. rewrite (drop_S _ _ _ Hx), Hx. simpl.
    destruct x as [w|]; simpl; [|done].
    rewrite filter_cons. destruct (g w) eqn:Hg.
    + rewrite decide_True by done. by rewrite <-app_assoc.
    + by rewrite decide_False by done.
Qed.

(** X20. With a callback that looks at the element only, [myFilter] is
    the usual filter on the elements that are not [undefined] (those are
    dropped even by a callback that accepts everything), and filtering
    its result again changes nothing. *)
Theorem myFilter_by_value {A} (g : A → bool) (this : list (option A)) :
  let callbackFn := λ v (_ : nat) (_ : list (option A)), g v in
  myFilter callbackFn this = filter (λ v, g v = true) (omap id this) ∧
  myFilter callbackFn (Some <$> myFilter callbackFn this)
  = myFilter callbackFn this.
Proof.
  intros callbackFn.
  assert (∀ l, myFilter callbackFn l = filter (λ v, g v = true) (omap id l))
    as Heq.
  { intros l. unfold myFilter, callbackFn.
    by rewrite myFilter_loop_filter by done. }
  split; [apply Heq|]. rewrite !Heq.
  assert (∀ l : list A, omap id (Some <$> l) = l) as Hid.
  { induction l as [|x l IH]; [done|]. simpl. f_equal. exact IH. }
  rewrite Hid, list_filter_filter. apply list_filter_iff. tauto.
Qed.

(** * The generator examples *)

Import Generators.

(** ** [range] *)

Lemma range_spread end_ step :
  0 < step →
  ∀ fuel cur, (Z.to_nat (end_ - cur) < fuel)%nat →
    ∃ l, spread (range_next end_ step) fuel cur = Some l ∧
         (∀ j x, l !! j = Some x → x = cur + Z.of_nat j * step ∧ x < end_) ∧
         end_ ≤ cur + Z.of_nat (length l) * step.
Proof.
  intros Hstep. induction fuel as [|fuel IH]; intros cur Hf; [lia|].
  simpl. unfold range_next at 1. case_decide.
  - destruct (IH (cur + step)) as (l & -> & Hl & Hend); [lia|].
    exists (cur :: l). split_and!; [done| |simpl length; lia].
    intros [|j] x Hx; simpl in Hx.
    + injection Hx as <-. lia.
    + apply Hl in Hx. lia.
  - exists []. split_and!; [done| |simpl; lia]. intros j x. by rewrite lookup_nil.
Qed.

(** X21. For safe integers [start], [end] and [step] with a positive
    [step], [[...range(start, end, step)]] is the list [start],
    [start + step], [start + 2*step], ... of all such numbers below [end]
    (empty when [start >= end]); each of them is a safe integer, so the
    sums that produce them are exact. Only the sum that ends the loop can
    be rounded, and rounding keeps it at or above [end]. *)
Theorem range_positive_step start end_ step :
  isSafeInteger start → isSafeInteger end_ → isSafeInteger step →
  0 < step →
  ∃ n, ∀ fuel, (n ≤ fuel)%nat →
    ∃ l, range fuel start end_ step = Some l ∧
         (∀ j x, l !! j = Some x →
                 x = start + Z.of_nat j * step ∧ x < end_ ∧ isSafeInteger x) ∧
         end_ ≤ start + Z.of_nat (length l) * step.
Proof.
  intros Hstart Hend _ Hstep. exists (S (Z.to_nat (end_ - start))).
  intros fuel Hf.
  destruct (range_spread end_ step Hstep fuel start) as (l & E & Hl & Hlast);
    [lia|].
  exists l. split_and!; [done| |done].
  intros j x Hx. destruct (Hl j x Hx) as [-> Hlt]. split_and!; [done..|].
  unfold isSafeInteger in *. nia.
Qed.

Lemma range_positive_step_witness :
  ∃ n, ∀ fuel, (n ≤ fuel)%nat →
    ∃ l, range fuel 0 20 3 = Some l ∧
         (∀ j x, l !! j = Some x →
                 x = 0 + Z.of_nat j * 3 ∧ x < 20 ∧ isSafeInteger x) ∧
         20 ≤ 0 + Z.of_nat (length l) * 3.
Proof.
  apply (range_positive_step 0 20 3); unfold isSafeInteger; lia.
Defined.

(** X22. With a [step] that is zero or negative and [start < end],
    [range] never finishes: spreading it does not return. *)
Theorem range_nonpositive_step_never_finishes start end_ step fuel :
  step ≤ 0 → start < end_ → range fuel start end_ step = None.
Proof.
  intros Hstep. unfold range. revert start.
  induction fuel as [|fuel IH]; intros cur Hlt; [done|].
  simpl. unfold range_next at 1. rewrite decide_True by done.
  rewrite IH by lia. done.
Qed.

Lemma range_nonpositive_step_never_finishes_witness :
  range 1000 0 10 0 = None.
Proof. apply range_nonpositive_step_never_finishes; lia. Defined.

(** ** [batch] and [slidingWindow] *)

Lemma slice_inside {A} (array : list A) (i size : nat) :
  slice array (Z.of_nat i) (Z.of_nat i + Z.of_nat size)
  = take size (drop i array).
Proof.
  unfold slice. rewrite !decide_False by lia.
  destruct (decide (i ≤ length array)%nat) as [Hi|Hi].
  - rewrite (Z.min_l (Z.of_nat i)) by lia. rewrite Nat2Z.id.
    destruct (decide (i + size ≤ length array)%nat).
    + rewrite Z.min_l by lia. f_equal. lia.
    + rewrite Z.min_r by lia. rewrite !take_ge; [done|..];
        rewrite length_drop; lia.
  - rewrite !drop_ge by lia. by rewrite !take_nil.
Qed.

Lemma batch_spread {A} (array : list A) (size : nat) :
  (0 < size)%nat →
  ∀ fuel i, (length array - i < fuel)%nat →
    ∃ bs, spread (batch_next array (Z.of_nat size)) fuel (Z.of_nat i) = Some bs ∧
          concat bs = drop i array ∧
          (length array ≤ i → bs = [])%nat ∧
          Forall (λ b, 0 < length b ≤ size)%nat bs ∧
          (∀ j b, bs !! j = Some b → (S j < length bs)%nat → length b = size).
Proof.
  intros Hsize. induction fuel as [|fuel IH]; intros i Hf; [lia|].
  simpl. unfold batch_next at 1. case_decide as Hi.
  - destruct (IH (i + size)%nat) as (bs & E & Hcat & Hnil & Hall & Hfull); [lia|].
    replace (Z.of_nat i + Z.of_nat size) with (Z.of_nat (i + size)) by lia.
    rewrite E. simpl.
    replace (Z.of_nat (i + size)) with (Z.of_nat i + Z.of_nat size) by lia.
    rewrite slice_inside.
    exists (take size (drop i array) :: bs). split_and!; [done|..].
    + simpl. rewrite Hcat, <-drop_drop. apply take_drop.
    + lia.
    + constructor; [|done]. rewrite length_take, length_drop. lia.
    + intros [|j] b Hb Hj; simpl in *.
      * injection Hb as <-. rewrite length_take, length_drop.
        destruct (decide (length array ≤ i + size)%nat) as [Hle|]; [|lia].
        rewrite (Hnil Hle) in Hj. simpl in Hj. lia.
      * apply (Hfull j); [done|lia].
  - exists []. split_and!; [done| |done|done|].
    + rewrite drop_ge; [done|lia].
    + intros j b. by rewrite lookup_nil.
Qed.

(** X23. With a positive [size], the batches of [batch(array, size)]
    put end to end give back [array]; every batch is non-empty and has at
    most [size] elements, and every batch but the last has exactly
    [size]. *)
Theorem batch_partitions_array {A} (array : list A) (size : nat) :
  (0 < size)%nat →
  ∃ n, ∀ fuel, (n ≤ fuel)%nat →
    ∃ bs, batch fuel array (Z.of_nat size) = Some bs ∧
          concat bs = array ∧
          Forall (λ b, 0 < length b ≤ size)%nat bs ∧
          (∀ j b, bs !! j = Some b → (S j < length bs)%nat → length b = size).
Proof.
  intros Hsize. exists (S (length array)). intros fuel Hf.
  destruct (batch_spread array size Hsize fuel 0)
    as (bs & E & Hcat & _ & Hall & Hfull); [lia|].
  exists bs. by split_and!.
Qed.

Lemma batch_partitions_array_witness :
  ∃ n, ∀ fuel, (n ≤ fuel)%nat →
    ∃ bs, batch fuel [1; 2; 3; 4; 5; 6; 7] (Z.of_nat 3) = Some bs ∧
          concat bs = [1; 2; 3; 4; 5; 6; 7] ∧
          Forall (λ b, 0 < length b ≤ 3)%nat bs ∧
          (∀ j b, bs !! j = Some b → (S j < length bs)%nat → length b = 3%nat).
Proof. apply (batch_partitions_array [1; 2; 3; 4; 5; 6; 7] 3). lia. Defined.

(** X24. With a [size] that is zero or negative, [batch] on a non-empty
    array never finishes: the loop variable never reaches the length. *)
Theorem batch_nonpositive_size_never_finishes {A} (array : list A) size fuel :
  size ≤ 0 → array ≠ [] → batch fuel array size = None.
Proof.
  intros Hsize Hne. unfold batch.
  assert (0 < Z.of_nat (length array)) as Hlen by (destruct array; simpl; [done|lia]).
  assert (∀ i, i ≤ 0 → spread (batch_next array size) fuel i = None) as H;
    [|by apply H].
  induction fuel as [|fuel IH]; intros i Hi; [done|].
  simpl. unfold batch_next at 1. rewrite decide_True by lia.
  rewrite IH by lia. done.
Qed.

Lemma batch_nonpositive_size_never_finishes_witness :
  batch 1000 [1; 2; 3] 0 = None.
Proof. apply batch_nonpositive_size_never_finishes; [lia|done]. Defined.

Lemma slidingWindow_spread {A} (array : list A) (size : nat) :
  ∀ fuel i, (length array + 1 - i < fuel)%nat →
    spread (slidingWindow_next array (Z.of_nat size)) fuel (Z.of_nat i)
    = Some ((λ j, take size (drop j array))
              <$> seq i (length array + 1 - size - i)).
Proof.
  induction fuel as [|fuel IH]; intros i Hf; [lia|].
  simpl. unfold slidingWindow_next at 1. case_decide as Hi.
  - replace (Z.of_nat i + 1) with (Z.of_nat (S i)) by lia.
    rewrite IH by lia. rewrite slice_inside.
    replace (length array + 1 - size - i)%nat
      with (S (length array + 1 - size - S i)) by lia.
    done.
  - by replace (length array + 1 - size - i)%nat with 0%nat by lia.
Qed.

(** X25. For a [size] that is not negative, [slidingWindow(array, size)]
    yields [length + 1 - size] windows (none when [size] exceeds the
    length); the [j]-th window is the [size] elements of [array] that
    start at index [j]. *)
Theorem slidingWindow_windows {A} (array : list A) (size : nat) :
  ∃ n, ∀ fuel, (n ≤ fuel)%nat →
    ∃ ws, slidingWindow fuel array (Z.of_nat size) = Some ws ∧
          length ws = (length array + 1 - size)%nat ∧
          ∀ j w, ws !! j = Some w →
                 w = take size (drop j array) ∧ length w = size.
Proof.
  exists (length array + 2)%nat. intros fuel Hf. eexists. split_and!.
  - apply (slidingWindow_spread array size fuel 0). lia.
  - rewrite length_fmap, length_seq. lia.
  - intros j w Hw. apply list_lookup_fmap_Some in Hw as (j' & -> & Hj).
    apply lookup_seq in Hj as [-> Hj]. simpl. split; [done|].
    rewrite length_take, length_drop. lia.
Qed.

(** ** [unique] *)

Lemma unique_spread : ∀ rest seen fuel,
  (length rest < fuel)%nat →
  ∃ l, spread (λ '(seen, rest), unique_next seen rest) fuel (seen, rest) = Some l ∧
       NoDup l ∧
       (∀ x, x ∈ l ↔ x ∈ rest ∧ x ∉ seen) ∧
       l `sublist_of` rest ∧
       (∀ l1 x l2, rest = l1 ++ x :: l2 → x ∉ l1 → x ∉ seen →
          ∃ k1 k2, l = k1 ++ x :: k2 ∧ ∀ y, y ∈ k1 ↔ y ∈ l1 ∧ y ∉ seen).
Proof.
  induction rest as [|item rest IH]; intros seen fuel Hf.
  - destruct fuel as [|fuel]; [simpl in Hf; lia|]. exists []. simpl.
    split_and!; [done|constructor| |done|].
    + intros x. rewrite elem_of_nil. tauto.
    + intros [|? ?] ? ? [=].
  - destruct fuel as [|fuel]; [simpl in Hf; lia|]. simpl in Hf.
    destruct (decide (item ∈ seen)) as [Hin|Hnin].
    + destruct (IH seen (S fuel)) as (l & E & Hnd & Hl & Hsub & Hord); [lia|].
      exists l. split_and!; [|done| |by apply sublist_cons|].
      * simpl in *. by rewrite decide_True by done.
      * intros x. rewrite Hl, elem_of_cons. split; [tauto|].
        intros [[->|?] ?]; tauto.
      * intros [|y l1] x l2 [= Hx Hrest] Hx1 Hxs; [congruence|]. subst y.
        apply not_elem_of_cons in Hx1 as [_ Hx1].
        destruct (Hord l1 x l2 Hrest Hx1 Hxs) as (k1 & k2 & -> & Hk).
        exists k1, k2. split; [done|]. intros y. rewrite Hk, elem_of_cons.
        split; [tauto|]. intros [[->|?] ?]; tauto.
    + destruct (IH ({[item]} ∪ seen) fuel) as (l & E & Hnd & Hl & Hsub & Hord);
        [lia|].
      assert (∀ y, y ∉ {[item]} ∪ seen ↔ y ≠ item ∧ y ∉ seen) as Hseen.
      { intros y. rewrite elem_of_union, elem_of_singleton. tauto. }
      exists (item :: l). split_and!.
      * simpl. rewrite decide_False by done. by rewrite E.
      * constructor; [|done]. rewrite Hl, Hseen. tauto.
      * intros x. rewrite !elem_of_cons, Hl, Hseen.
        destruct (decide (x = item)) as [->|]; tauto.
      * by apply sublist_skip.
      * intros [|y l1] x l2 [= Hx Hrest] Hx1 Hxs.
        { subst x. exists [], l. split; [done|]. intros y.
          rewrite elem_of_nil. tauto. }
        subst y. apply not_elem_of_cons in Hx1 as [Hne Hx1].
        destruct (Hord l1 x l2 Hrest Hx1) as (k1 & k2 & -> & Hk).
        { by apply Hseen. }
        exists (item :: k1), k2. split; [done|]. intros y.
        rewrite !elem_of_cons, Hk, Hseen.
        destruct (decide (y = item)) as [->|]; tauto.
Qed.

(** X26. [[...unique(items)]] holds every number of [items] exactly
    once, in the order in which the numbers first occur: the numbers
    listed before [x] are those that occur in [items] before the first
    [x]. *)
Theorem unique_removes_repeats (items : list Z) :
  ∃ n, ∀ fuel, (n ≤ fuel)%nat →
    ∃ l, unique fuel items = Some l ∧
         NoDup l ∧
         (∀ x, x ∈ l ↔ x ∈ items) ∧
         l `sublist_of` items ∧
         (∀ l1 x l2, items = l1 ++ x :: l2 → x ∉ l1 →
            ∃ k1 k2, l = k1 ++ x :: k2 ∧ ∀ y, y ∈ k1 ↔ y ∈ l1).
Proof.
  exists (S (length items)). intros fuel Hf.
  destruct (unique_spread items ∅ fuel) as (l & E & Hnd & Hl & Hsub & Hord);
    [lia|].
  assert (∀ x (P : Prop), P ∧ x ∉ (∅ : gset Z) ↔ P) as Hempty.
  { intros x P. split; [tauto|]. intros HP. split; [done|].
    apply not_elem_of_empty. }
  exists l. split_and!; try done.
  - intros x. by rewrite Hl, Hempty.
  - intros l1 x l2 Hitems Hx1.
    destruct (Hord l1 x l2 Hitems Hx1) as (k1 & k2 & -> & Hk);
      [apply not_elem_of_empty|].
    exists k1, k2. split; [done|]. intros y. by rewrite Hk, Hempty.
Qed.

(** ** [isPrime] *)

Lemma isPrime_loop_spec n :
  2 ≤ n →
  ∀ fuel i,
    2 ≤ i → (Z.to_nat (n - i) + 2 ≤ fuel)%nat →
    (∀ d, 2 ≤ d < i → ¬ (d | n)) →
    ∃ b, isPrime_loop fuel n i = Some b ∧ (b = true ↔ Znumtheory.prime n).
Proof.
  intros Hn. induction fuel as [|fuel IH]; intros i Hi Hf Hnodiv; [lia|].
  simpl. case_decide as Hsq.
  - assert (i < n) by nia.
    case_decide as Hrem.
    + apply Z.rem_divide in Hrem; [|lia].
      exists false. split; [done|]. split; [done|].
      intros Hp%Znumtheory.prime_alt. destruct Hp as [_ Hp].
      destruct (Hp i); [lia|done].
    + apply IH; [lia|lia|]. intros d Hd Hdiv.
      destruct (decide (d = i)) as [->|].
      * apply Hrem. apply Z.rem_divide; [lia|done].
      * apply (Hnodiv d); [lia|done].
  - exists true. split; [done|]. split; [|done]. intros _.
    apply Znumtheory.prime_alt. split; [lia|].
    intros d Hd [q Hq].
    assert (1 < q < n) by nia.
    destruct (decide (d ≤ q)).
    + apply (Hnodiv d); [nia|]. by exists q.
    + apply (Hnodiv q); [nia|]. exists d. lia.
Qed.

(** X27. [isPrime(n)] returns [true] exactly when the integer [n] is a
    prime number. *)
Theorem isPrime_correct (n : Z) :
  ∃ m, ∀ fuel, (m ≤ fuel)%nat →
    ∃ b, isPrime fuel n = Some b ∧ (b = true ↔ Znumtheory.prime n).
Proof.
  exists (Z.to_nat n + 2)%nat. intros fuel Hf. unfold isPrime. case_decide.
  - exists false. split; [done|]. split; [done|]. intros [Hp _]. lia.
  - apply isPrime_loop_spec; [lia|lia|lia|]. intros d Hd. lia.
Qed.

(** ** The two Fibonacci functions *)

Section fibonacci_numbers.
Context {number : Type} (of_Z : Z → number) (add : number → number → number).

Lemma Fibonacci_pair_snd n :
  snd (Fibonacci_pair of_Z add n) = Fibonacci of_Z add (S n).
Proof. unfold Fibonacci. simpl. by destruct (Fibonacci_pair of_Z add n). Qed.

Lemma Fibonacci_SS n :
  Fibonacci of_Z add (S (S n))
  = add (Fibonacci of_Z add n) (Fibonacci of_Z add (S n)).
Proof.
  unfold Fibonacci. simpl. by destruct (Fibonacci_pair of_Z add n) as [a b].
Qed.

Lemma fibonacci_Fibonacci :
  (∀ a b, add a b = add b a) →
  ∀ fuel n,
    (n < fuel)%nat →
    fibonacci of_Z add fuel (Z.of_nat n) = Some (Fibonacci of_Z add n).
Proof.
  intros Hcomm. induction fuel as [|fuel IH]; intros n Hf; [lia|].
  simpl. case_decide.
  - assert (n = 0 ∨ n = 1)%nat as [->| ->] by lia; done.
  - destruct n as [|[|n]]; [lia|lia|].
    replace (Z.of_nat (S (S n)) - 1) with (Z.of_nat (S n)) by lia.
    replace (Z.of_nat (S (S n)) - 2) with (Z.of_nat n) by lia.
    rewrite !IH by lia. simpl. by rewrite Fibonacci_SS, Hcomm.
Qed.

Lemma getFibonacciSequence_loop_spec : ∀ n j result,
  getFibonacciSequence_loop add n (Fibonacci_pair of_Z add j) result
  = result ++ (Fibonacci of_Z add <$> seq (S j) n).
Proof.
  induction n as [|n IH]; intros j result; simpl.
  - by rewrite app_nil_r.
  - destruct (Fibonacci_pair of_Z add j) as [a b] eqn:Hj. simpl.
    assert (Fibonacci_pair of_Z add (S j) = (b, add a b)) as <-
      by (simpl; by rewrite Hj).
    rewrite IH, <-app_assoc. simpl. do 2 f_equal.
    by rewrite <-Fibonacci_pair_snd, Hj.
Qed.

End fibonacci_numbers.

(** X28. The generator and the recursive function agree, whatever the
    engine's addition rounds to, as long as it is commutative (the
    addition of doubles is): for a [count] up to [2^53], which the loop
    counter reaches exactly, [getFibonacciSequence(count)] has [count]
    elements, and its element at index [i] is what the recursive
    [fibonacci(i + 1)] returns. *)
Theorem getFibonacciSequence_agrees_with_fibonacci {number}
    (of_Z : Z → number) (add : number → number → number) (count i : nat) :
  (∀ a b, add a b = add b a) →
  Z.of_nat count ≤ 2 ^ 53 →
  (i < count)%nat →
  length (getFibonacciSequence of_Z add count) = count ∧
  ∃ v, getFibonacciSequence of_Z add count !! i = Some v ∧
       ∀ fuel, (i + 1 < fuel)%nat →
         fibonacci of_Z add fuel (Z.of_nat i + 1) = Some v.
Proof.
  intros Hcomm _ Hi. unfold getFibonacciSequence, fibonacci_init.
  change (of_Z 0, of_Z 1) with (Fibonacci_pair of_Z add 0).
  rewrite getFibonacciSequence_loop_spec. simpl.
  split; [by rewrite length_fmap, length_seq|].
  exists (Fibonacci of_Z add (S i)). split.
  - rewrite list_lookup_fmap, lookup_seq_lt by done. done.
  - intros fuel Hf. replace (Z.of_nat i + 1) with (Z.of_nat (S i)) by lia.
    apply fibonacci_Fibonacci; [done|lia].
Qed.

Lemma getFibonacciSequence_agrees_with_fibonacci_witness :
  length (getFibonacciSequence id Z.add 10) = 10%nat ∧
  ∃ v, getFibonacciSequence id Z.add 10 !! 9%nat = Some v ∧
       ∀ fuel, (9 + 1 < fuel)%nat →
         fibonacci id Z.add fuel (Z.of_nat 9 + 1) = Some v.
Proof.
  apply (getFibonacciSequence_agrees_with_fibonacci id Z.add 10 9).
  - intros a b. lia.
  - by_eval.
  - lia.
Defined.

(** ** [combinations] *)

Lemma sublist_cons_lookup {A} (x : A) (c arr : list A) :
  x :: c `sublist_of` arr ↔
  ∃ i, arr !! i = Some x ∧ c `sublist_of` drop (S i) arr.
Proof.
  split.
  - induction arr as [|y arr IH]; intros Hsub.
    + by apply sublist_nil_r in Hsub.
    + apply sublist_cons_r in Hsub as [Hsub|(c' & [= -> ->] & Hsub)].
      * destruct (IH Hsub) as (i & Hi & Hc). by exists (S i).
      * by exists 0%nat.
  - intros (i & Hi & Hc).
    rewrite <-(take_drop_middle arr i x Hi).
    apply sublist_inserts_l. by apply sublist_skip.
Qed.

(** X29. [combinations(arr, k)] yields exactly the subsequences of [arr]
    that have [k] elements (so nothing when [k] exceeds the length, and
    only the empty array when [k] is 0). *)
Theorem combinations_are_sublists {A} (k : nat) (arr c : list A) :
  c ∈ Generators.combinations k arr ↔ c `sublist_of` arr ∧ length c = k.
Proof.
  revert arr c. induction k as [|k IH]; intros arr c.
  - simpl. rewrite list_elem_of_singleton. split.
    + intros ->. split; [apply sublist_nil_l|done].
    + intros [_ Hlen]. by destruct c.
  - change (Generators.combinations (S k) arr)
      with (i ← seq 0 (length arr + 1 - S k);
            match arr !! i with
            | Some x => combo ← Generators.combinations k (drop (S i) arr);
                        [x :: combo]
            | None => []
            end).
    rewrite list_elem_of_bind. split.
    + intros (i & Hc & Hi). apply elem_of_seq in Hi.
      destruct (arr !! i) as [x|] eqn:Hx; [|by apply elem_of_nil in Hc].
      apply list_elem_of_bind in Hc as (combo & Hc & Hcombo).
      apply list_elem_of_singleton in Hc as ->.
      apply IH in Hcombo as [Hsub <-]. split; [|done].
      apply sublist_cons_lookup. eauto.
    + intros [Hsub Hlen]. destruct c as [|x c]; [done|].
      injection Hlen as Hlen.
      apply sublist_cons_lookup in Hsub as (i & Hx & Hsub).
      exists i. split.
      * rewrite Hx. apply list_elem_of_bind. exists c.
        split; [by apply list_elem_of_singleton|]. by apply IH.
      * apply elem_of_seq. apply sublist_length in Hsub.
        rewrite length_drop in Hsub. apply lookup_lt_Some in Hx. lia.
Qed.
